(** * go-kafka-event-source: the [Source] configuration wrapper and the
    partition worker of package [streams]

    A shallow embedding of [streams/source.go] (the read-only wrapper of
    [EventSourceConfig] and the derived names and defaults) and of the
    partition worker (scheduling of record batches and interjections by
    the ingress goroutine [pushRecords], handling of event contexts by the
    dispatch goroutine [work]).

    Conventions.
    - Go's [int] and [int64] are 64-bit two's-complement integers: values
      are [Z], arithmetic wraps through [Int64.wrap].
    - A nil-able Go value (pointer, func value, interface) is an [option];
      [None] is [nil].
    - A buffered channel is the list of the values it holds, oldest first,
      together with its capacity.  An operation that would block in the
      state at hand yields [None] ("not enabled"); the goroutine stays
      where it is until another goroutine changes the state.
    - Two goroutines share the worker.  Each has a program point
      ([ingress_pc], [dispatch_pc]); an [action] lets one goroutine, or the
      environment, take one step. *)

From Stdlib Require Import ZArith List String Bool Lia Sorted.
Import ListNotations.
Local Open Scope Z_scope.

(** ** Machine integers *)

Module Int64.

Definition min_int : Z := - 2 ^ 63.
Definition max_int : Z := 2 ^ 63 - 1.

Definition in_range (z : Z) : Prop := min_int <= z <= max_int.

(** The value a 64-bit signed register holds after computing [z]. *)
Definition wrap (z : Z) : Z := (z + 2 ^ 63) mod 2 ^ 64 - 2 ^ 63.

Definition add (x y : Z) : Z := wrap (x + y).
Definition sub (x y : Z) : Z := wrap (x - y).

(** Go's [/] on integers truncates toward zero. *)
Definition div (x y : Z) : Z := wrap (Z.quot x y).
Definition mul (x y : Z) : Z := wrap (x * y).

End Int64.

(** ** source.go *)

Inductive EventSourceState : Set := Healthy | Unhealthy.

(** [EosConfig] is declared in another file of the package; the partition
    worker reads [MaxBatchSize] only. *)
Record EosConfig : Set := { MaxBatchSize : Z }.

Section SourceDefinitions.

(** [Cluster] is an interface, the two error handlers are func types; all
    three are declared in other files of the package.  Their non-nil
    values are kept abstract. *)
Variables Cluster DeserializationErrorHandlerFunc TxnErrorHandlerFunc : Type.

(** The package-level default handlers. *)
Variable DefaultDeserializationErrorHandler : DeserializationErrorHandlerFunc.
Variable DefaultTxnErrorHandler : TxnErrorHandlerFunc.

(** The fields of [EventSourceConfig] that this file reads.  (The balance
    strategies, the metrics handler and the four partition event handlers
    are only passed on to other files.) *)
Record EventSourceConfig : Type := {
  GroupId : string;
  Topic : string;
  StateStoreTopic : string;
  NumPartitions : Z;
  ReplicationFactor : Z;
  MinInSync : Z;
  SourceCluster : option Cluster;
  StateCluster : option Cluster;
  CommitOffsets : bool;
  EosConfig_ : EosConfig;
  DeserializationErrorHandler : option DeserializationErrorHandlerFunc;
  TxnErrorHandler : option TxnErrorHandlerFunc
}.

(** The [int] fields hold Go [int] values. *)
Definition config_ints_in_range (c : EventSourceConfig) : Prop :=
  Int64.in_range (NumPartitions c) /\
  Int64.in_range (ReplicationFactor c) /\
  Int64.in_range (MinInSync c).

(** [Source]: the [failure] channel plays no part in the functions below. *)
Record Source : Type := {
  state : EventSourceState;
  config : EventSourceConfig
}.

Definition newSource (c : EventSourceConfig) : Source :=
  {| state := Healthy; config := c |}.

Definition shouldMarkCommit (s : Source) : bool :=
  false.

Definition eosErrorHandler (s : Source) : option TxnErrorHandlerFunc :=
  match TxnErrorHandler (config s) with
  | None => Some DefaultTxnErrorHandler
  | Some h => Some h
  end.

Definition deserializationErrorHandler (s : Source)
  : option DeserializationErrorHandlerFunc :=
  match TxnErrorHandler (config s) with
  | None => Some DefaultDeserializationErrorHandler
  | Some _ => DeserializationErrorHandler (config s)
  end.

Definition State (s : Source) : EventSourceState := state s.

Definition Source_Topic (s : Source) : string := Topic (config s).

Definition Source_GroupId (s : Source) : string := GroupId (config s).

Definition Config (s : Source) : EventSourceConfig := config s.

Definition Source_NumPartitions (s : Source) : Z := NumPartitions (config s).

(** [fmt.Sprintf] with the verb [%s] and a string argument splices the
    argument into the format unchanged. *)
Definition CommitLogTopicNameForGroupId (s : Source) : string :=
  ("gkes_commit_log_" ++ GroupId (config s))%string.

Definition StateStoreTopicName (s : Source) : string :=
  if (0 <? Z.of_nat (String.length (StateStoreTopic (config s))))
  then StateStoreTopic (config s)
  else ("gkes_change_log_" ++ Topic (config s) ++ "_" ++ GroupId (config s))%string.

Definition stateCluster (s : Source) : option Cluster :=
  match StateCluster (config s) with
  | None => SourceCluster (config s)
  | Some c => Some c
  end.

Definition replicationFactorConfig (source : Source) : Z :=
  if ReplicationFactor (config source) <=? 0
  then 1
  else ReplicationFactor (config source).

Definition minInSyncConfig (source : Source) : Z :=
  let factor := replicationFactorConfig source in
  if factor <=? 1 then 1
  else if MinInSync (config source) >=? factor
       then Int64.sub (ReplicationFactor (config source)) 1
       else MinInSync (config source).

End SourceDefinitions.

Arguments GroupId {_ _ _} _.
Arguments Topic {_ _ _} _.
Arguments StateStoreTopic {_ _ _} _.
Arguments NumPartitions {_ _ _} _.
Arguments ReplicationFactor {_ _ _} _.
Arguments MinInSync {_ _ _} _.
Arguments SourceCluster {_ _ _} _.
Arguments StateCluster {_ _ _} _.
Arguments CommitOffsets {_ _ _} _.
Arguments EosConfig_ {_ _ _} _.
Arguments DeserializationErrorHandler {_ _ _} _.
Arguments TxnErrorHandler {_ _ _} _.
Arguments config_ints_in_range {_ _ _} _.
Arguments state {_ _ _} _.
Arguments config {_ _ _} _.
Arguments newSource {_ _ _} _.
Arguments shouldMarkCommit {_ _ _} _.
Arguments eosErrorHandler {_ _ _} _ _.
Arguments deserializationErrorHandler {_ _ _} _ _.
Arguments CommitLogTopicNameForGroupId {_ _ _} _.
Arguments StateStoreTopicName {_ _ _} _.
Arguments stateCluster {_ _ _} _.
Arguments replicationFactorConfig {_ _ _} _.
Arguments minInSyncConfig {_ _ _} _.

(** ** The partition worker: data *)

(** The option monad of the embedding: [None] is an operation that cannot
    complete in the state at hand (a send on a full channel, a receive from
    an empty one), or a run-time panic. *)
Notation "x <- c ;; k" :=
  (match c with Some x => k | None => None end)
  (at level 61, c at next level, right associativity).

Inductive ExecutionState : Set :=
| Complete
| Incomplete
| Fatal
| unknownType.

(** [kgo.Record]: the worker reads the offset only. *)
Record kgo_Record : Set := { Offset : Z }.

(** A producer slot of the pool ([*producerNode]), an opaque handle. *)
Definition producerNode : Set := nat.

(** Modelled from the spec: the [interjection] struct, which is declared
    in another file of the package.  "Interjection: interval,
    optional one-shot callback, interjector function, cancellation
    handle."  [ij_id] names the interjection; [callback] is the optional
    one-shot callback, named by a label so that its invocations can be
    recorded. *)
Record interjection : Set := {
  ij_id : nat;
  callback : option nat
}.

(** Modelled from the spec: [EventContext], which is declared in another
    file of the package.  "Holds one of: a Kafka record, or an
    interjection pointer", and "the assigned producer slot (initially
    empty)". *)
Record EventContext : Set := {
  input : option kgo_Record;
  ec_interjection : option interjection;
  producer : option producerNode
}.

(** Modelled from the spec: [newEventContext] and [newInterjectionContext]
    build a context around the record, resp. the interjection, with an
    empty producer slot. *)
Definition newEventContext (record : kgo_Record) : EventContext :=
  {| input := Some record; ec_interjection := None; producer := None |}.

Definition newInterjectionContext (inter : interjection) : EventContext :=
  {| input := None; ec_interjection := Some inter; producer := None |}.

(** Modelled from the spec: [EventContext.Offset()] is the offset of the
    record the context holds; [EventContext.Input()] is "record or nil".
    (A context without a record, which [eventInput] never carries, is given
    offset -1.) *)
Definition EventContext_Offset (ec : EventContext) : Z :=
  match input ec with
  | Some r => Offset r
  | None => -1
  end.

Definition EventContext_Input (ec : EventContext) : option kgo_Record :=
  input ec.

Definition assign (p : option producerNode) (ec : EventContext) : EventContext :=
  {| input := input ec; ec_interjection := ec_interjection ec; producer := p |}.

Record AsyncJob : Set := {
  ctx : EventContext;
  finalizer : unit -> ExecutionState
}.

Definition Finalize (aj : AsyncJob) : ExecutionState := finalizer aj tt.

(** Modelled from the spec: [sak.RunStatus], "a two-state cancellation
    handle: Running -> Halted"; a forked child is halted when its parent
    is, [Halt] is idempotent, [Running] is "true iff not Halted". *)
Record RunStatus : Set := { halted : bool }.

Definition Fork (rs : RunStatus) : RunStatus := {| halted := halted rs |}.
Definition Halt (rs : RunStatus) : RunStatus := {| halted := true |}.
Definition Running (rs : RunStatus) : bool := negb (halted rs).

(** Buffered channels. *)
Definition chan_send {A : Type} (cap : nat) (q : list A) (x : A) : option (list A) :=
  if (List.length q <? cap)%nat then Some (q ++ [x]) else None.

(** The worker.  The three lifecycle channels, the change log and the
    topic partition take no part in scheduling and dispatch and are left
    out; of [asyncCompleter.asyncJobs] only the jobs that [work] receives
    appear, as they arrive.  [maxPending] is a [chan struct{}]: its content
    is the number of tokens it holds.  [eosProducer] records the contexts handed to
    [addEventContext], oldest first.  The last five fields record effects
    on collaborators: [contexts] every context constructed, [completed]
    the calls of [ec.complete()], [handled] the calls of the event handler,
    [callbacks] the callbacks invoked, [ticks] the calls of [inter.tick()]. *)
Record partitionWorker : Set := {
  eosProducer : list EventContext;
  partitionInput : list (list (option kgo_Record));
  maxPending : nat;
  maxPending_cap : nat;
  interjectionInput : list interjection;
  eventInput : list EventContext;
  eventInput_cap : nat;
  interjectionEventInput : list EventContext;
  runStatus : RunStatus;
  ready : Z;
  highestOffset : Z;
  revocationWaiter : Z;
  contexts : list EventContext;
  completed : list EventContext;
  handled : list (EventContext * option kgo_Record);
  callbacks : list nat;
  ticks : list interjection
}.

Definition partitionInput_cap : nat := 4.
Definition interjectionInput_cap : nat := 1.
Definition interjectionEventInput_cap : nat := 1.

Definition set_eosProducer (v : list EventContext) (pw : partitionWorker) :=
  {| eosProducer := v; partitionInput := partitionInput pw;
     maxPending := maxPending pw; maxPending_cap := maxPending_cap pw;
     interjectionInput := interjectionInput pw; eventInput := eventInput pw;
     eventInput_cap := eventInput_cap pw;
     interjectionEventInput := interjectionEventInput pw;
     runStatus := runStatus pw; ready := ready pw;
     highestOffset := highestOffset pw; revocationWaiter := revocationWaiter pw;
     contexts := contexts pw; completed := completed pw; handled := handled pw;
     callbacks := callbacks pw; ticks := ticks pw |}.

Definition set_partitionInput (v : list (list (option kgo_Record))) (pw : partitionWorker) :=
  {| eosProducer := eosProducer pw; partitionInput := v;
     maxPending := maxPending pw; maxPending_cap := maxPending_cap pw;
     interjectionInput := interjectionInput pw; eventInput := eventInput pw;
     eventInput_cap := eventInput_cap pw;
     interjectionEventInput := interjectionEventInput pw;
     runStatus := runStatus pw; ready := ready pw;
     highestOffset := highestOffset pw; revocationWaiter := revocationWaiter pw;
     contexts := contexts pw; completed := completed pw; handled := handled pw;
     callbacks := callbacks pw; ticks := ticks pw |}.

Definition set_maxPending (v : nat) (pw : partitionWorker) :=
  {| eosProducer := eosProducer pw; partitionInput := partitionInput pw;
     maxPending := v; maxPending_cap := maxPending_cap pw;
     interjectionInput := interjectionInput pw; eventInput := eventInput pw;
     eventInput_cap := eventInput_cap pw;
     interjectionEventInput := interjectionEventInput pw;
     runStatus := runStatus pw; ready := ready pw;
     highestOffset := highestOffset pw; revocationWaiter := revocationWaiter pw;
     contexts := contexts pw; completed := completed pw; handled := handled pw;
     callbacks := callbacks pw; ticks := ticks pw |}.

Definition set_interjectionInput (v : list interjection) (pw : partitionWorker) :=
  {| eosProducer := eosProducer pw; partitionInput := partitionInput pw;
     maxPending := maxPending pw; maxPending_cap := maxPending_cap pw;
     interjectionInput := v; eventInput := eventInput pw;
     eventInput_cap := eventInput_cap pw;
     interjectionEventInput := interjectionEventInput pw;
     runStatus := runStatus pw; ready := ready pw;
     highestOffset := highestOffset pw; revocationWaiter := revocationWaiter pw;
     contexts := contexts pw; completed := completed pw; handled := handled pw;
     callbacks := callbacks pw; ticks := ticks pw |}.

Definition set_eventInput (v : list EventContext) (pw : partitionWorker) :=
  {| eosProducer := eosProducer pw; partitionInput := partitionInput pw;
     maxPending := maxPending pw; maxPending_cap := maxPending_cap pw;
     interjectionInput := interjectionInput pw; eventInput := v;
     eventInput_cap := eventInput_cap pw;
     interjectionEventInput := interjectionEventInput pw;
     runStatus := runStatus pw; ready := ready pw;
     highestOffset := highestOffset pw; revocationWaiter := revocationWaiter pw;
     contexts := contexts pw; completed := completed pw; handled := handled pw;
     callbacks := callbacks pw; ticks := ticks pw |}.

Definition set_interjectionEventInput (v : list EventContext) (pw : partitionWorker) :=
  {| eosProducer := eosProducer pw; partitionInput := partitionInput pw;
     maxPending := maxPending pw; maxPending_cap := maxPending_cap pw;
     interjectionInput := interjectionInput pw; eventInput := eventInput pw;
     eventInput_cap := eventInput_cap pw;
     interjectionEventInput := v;
     runStatus := runStatus pw; ready := ready pw;
     highestOffset := highestOffset pw; revocationWaiter := revocationWaiter pw;
     contexts := contexts pw; completed := completed pw; handled := handled pw;
     callbacks := callbacks pw; ticks := ticks pw |}.

Definition set_runStatus (v : RunStatus) (pw : partitionWorker) :=
  {| eosProducer := eosProducer pw; partitionInput := partitionInput pw;
     maxPending := maxPending pw; maxPending_cap := maxPending_cap pw;
     interjectionInput := interjectionInput pw; eventInput := eventInput pw;
     eventInput_cap := eventInput_cap pw;
     interjectionEventInput := interjectionEventInput pw;
     runStatus := v; ready := ready pw;
     highestOffset := highestOffset pw; revocationWaiter := revocationWaiter pw;
     contexts := contexts pw; completed := completed pw; handled := handled pw;
     callbacks := callbacks pw; ticks := ticks pw |}.

Definition set_ready (v : Z) (pw : partitionWorker) :=
  {| eosProducer := eosProducer pw; partitionInput := partitionInput pw;
     maxPending := maxPending pw; maxPending_cap := maxPending_cap pw;
     interjectionInput := interjectionInput pw; eventInput := eventInput pw;
     eventInput_cap := eventInput_cap pw;
     interjectionEventInput := interjectionEventInput pw;
     runStatus := runStatus pw; ready := v;
     highestOffset := highestOffset pw; revocationWaiter := revocationWaiter pw;
     contexts := contexts pw; completed := completed pw; handled := handled pw;
     callbacks := callbacks pw; ticks := ticks pw |}.

Definition set_highestOffset (v : Z) (pw : partitionWorker) :=
  {| eosProducer := eosProducer pw; partitionInput := partitionInput pw;
     maxPending := maxPending pw; maxPending_cap := maxPending_cap pw;
     interjectionInput := interjectionInput pw; eventInput := eventInput pw;
     eventInput_cap := eventInput_cap pw;
     interjectionEventInput := interjectionEventInput pw;
     runStatus := runStatus pw; ready := ready pw;
     highestOffset := v; revocationWaiter := revocationWaiter pw;
     contexts := contexts pw; completed := completed pw; handled := handled pw;
     callbacks := callbacks pw; ticks := ticks pw |}.

Definition set_revocationWaiter (v : Z) (pw : partitionWorker) :=
  {| eosProducer := eosProducer pw; partitionInput := partitionInput pw;
     maxPending := maxPending pw; maxPending_cap := maxPending_cap pw;
     interjectionInput := interjectionInput pw; eventInput := eventInput pw;
     eventInput_cap := eventInput_cap pw;
     interjectionEventInput := interjectionEventInput pw;
     runStatus := runStatus pw; ready := ready pw;
     highestOffset := highestOffset pw; revocationWaiter := v;
     contexts := contexts pw; completed := completed pw; handled := handled pw;
     callbacks := callbacks pw; ticks := ticks pw |}.

Definition set_contexts (v : list EventContext) (pw : partitionWorker) :=
  {| eosProducer := eosProducer pw; partitionInput := partitionInput pw;
     maxPending := maxPending pw; maxPending_cap := maxPending_cap pw;
     interjectionInput := interjectionInput pw; eventInput := eventInput pw;
     eventInput_cap := eventInput_cap pw;
     interjectionEventInput := interjectionEventInput pw;
     runStatus := runStatus pw; ready := ready pw;
     highestOffset := highestOffset pw; revocationWaiter := revocationWaiter pw;
     contexts := v; completed := completed pw; handled := handled pw;
     callbacks := callbacks pw; ticks := ticks pw |}.

Definition set_completed (v : list EventContext) (pw : partitionWorker) :=
  {| eosProducer := eosProducer pw; partitionInput := partitionInput pw;
     maxPending := maxPending pw; maxPending_cap := maxPending_cap pw;
     interjectionInput := interjectionInput pw; eventInput := eventInput pw;
     eventInput_cap := eventInput_cap pw;
     interjectionEventInput := interjectionEventInput pw;
     runStatus := runStatus pw; ready := ready pw;
     highestOffset := highestOffset pw; revocationWaiter := revocationWaiter pw;
     contexts := contexts pw; completed := v; handled := handled pw;
     callbacks := callbacks pw; ticks := ticks pw |}.

Definition set_handled (v : list (EventContext * option kgo_Record)) (pw : partitionWorker) :=
  {| eosProducer := eosProducer pw; partitionInput := partitionInput pw;
     maxPending := maxPending pw; maxPending_cap := maxPending_cap pw;
     interjectionInput := interjectionInput pw; eventInput := eventInput pw;
     eventInput_cap := eventInput_cap pw;
     interjectionEventInput := interjectionEventInput pw;
     runStatus := runStatus pw; ready := ready pw;
     highestOffset := highestOffset pw; revocationWaiter := revocationWaiter pw;
     contexts := contexts pw; completed := completed pw; handled := v;
     callbacks := callbacks pw; ticks := ticks pw |}.

Definition set_callbacks (v : list nat) (pw : partitionWorker) :=
  {| eosProducer := eosProducer pw; partitionInput := partitionInput pw;
     maxPending := maxPending pw; maxPending_cap := maxPending_cap pw;
     interjectionInput := interjectionInput pw; eventInput := eventInput pw;
     eventInput_cap := eventInput_cap pw;
     interjectionEventInput := interjectionEventInput pw;
     runStatus := runStatus pw; ready := ready pw;
     highestOffset := highestOffset pw; revocationWaiter := revocationWaiter pw;
     contexts := contexts pw; completed := completed pw; handled := handled pw;
     callbacks := v; ticks := ticks pw |}.

Definition set_ticks (v : list interjection) (pw : partitionWorker) :=
  {| eosProducer := eosProducer pw; partitionInput := partitionInput pw;
     maxPending := maxPending pw; maxPending_cap := maxPending_cap pw;
     interjectionInput := interjectionInput pw; eventInput := eventInput pw;
     eventInput_cap := eventInput_cap pw;
     interjectionEventInput := interjectionEventInput pw;
     runStatus := runStatus pw; ready := ready pw;
     highestOffset := highestOffset pw; revocationWaiter := revocationWaiter pw;
     contexts := contexts pw; completed := completed pw; handled := handled pw;
     callbacks := callbacks pw; ticks := v |}.

(** ** The partition worker: operations *)

(** [sak.Max], the larger of two ordered values. *)
Definition sak_Max (a b : Z) : Z := if a <? b then b else a.

(** [newPartitionWorker]: the worker as constructed, before [work] has
    activated it.  [parent] is [eventSource.runStatus], [eosConfig] is
    [eventSource.source.config.EosConfig], [maxPendingItems] is what
    [eosProducer.maxPendingItems()] returns.  [make] panics on a negative
    capacity, which only [maxPendingItems] can be: [recordsInputSize] is
    at least 100, and [asyncSize], four times as much, stays below [2^62]
    and does not wrap.  [make] also panics on a buffer beyond what the
    run time can allocate; that limit depends on the platform and is not
    modelled, so [Some] here means: constructed, if the buffers can be
    allocated. *)
Definition newPartitionWorker (parent : RunStatus) (eosConfig : EosConfig)
  (maxPendingItems : Z) : option partitionWorker :=
  let recordsInputSize := sak_Max (Int64.div (MaxBatchSize eosConfig) 10) 100 in
  if maxPendingItems <? 0 then None
  else Some {|
    eosProducer := [];
    partitionInput := [];
    maxPending := 0;
    maxPending_cap := Z.to_nat maxPendingItems;
    interjectionInput := [];
    eventInput := [];
    eventInput_cap := Z.to_nat recordsInputSize;
    interjectionEventInput := [];
    runStatus := Fork parent;
    ready := 0;
    highestOffset := -1;
    revocationWaiter := 0;
    contexts := [];
    completed := [];
    handled := [];
    callbacks := [];
    ticks := []
  |}.

Definition canInterject (pw : partitionWorker) : bool :=
  negb (ready pw =? 0).

Definition isRevoked (pw : partitionWorker) : bool :=
  negb (Running (runStatus pw)).

Definition add (pw : partitionWorker) (records : list (option kgo_Record))
  : option partitionWorker :=
  if isRevoked pw then Some pw
  else
    q <- chan_send partitionInput_cap (partitionInput pw) records ;;
    Some (set_partitionInput q pw).

Definition revoke (pw : partitionWorker) : partitionWorker :=
  set_runStatus (Halt (runStatus pw)) pw.

(** [pw.revocationWaiter.Add(n)] and [pw.revocationWaiter.Done()]. *)
Definition waiter_Add (n : Z) (pw : partitionWorker) : partitionWorker :=
  set_revocationWaiter (revocationWaiter pw + n) pw.

Definition waiter_Done (pw : partitionWorker) : partitionWorker :=
  waiter_Add (-1) pw.

(** [pw.maxPending <- struct{}{}] and [<-pw.maxPending]. *)
Definition acquire (pw : partitionWorker) : option partitionWorker :=
  if (maxPending pw <? maxPending_cap pw)%nat
  then Some (set_maxPending (S (maxPending pw)) pw)
  else None.

Definition release (pw : partitionWorker) : option partitionWorker :=
  match maxPending pw with
  | O => None
  | S n => Some (set_maxPending n pw)
  end.

(** Bookkeeping of a constructed context. *)
Definition created (ec : EventContext) (pw : partitionWorker) : partitionWorker :=
  set_contexts (contexts pw ++ [ec]) pw.

(** [pw.eosProducer.addEventContext(ec)]: the pool is an external
    collaborator; the worker's view of it is the order of admission. *)
Definition addEventContext (ec : EventContext) (pw : partitionWorker) : partitionWorker :=
  set_eosProducer (eosProducer pw ++ [ec]) pw.

(** [pw.eventInput <- ec] and [pw.interjectionEventInput <- ec]. *)
Definition send_eventInput (ec : EventContext) (pw : partitionWorker)
  : option partitionWorker :=
  q <- chan_send (eventInput_cap pw) (eventInput pw) ec ;;
  Some (set_eventInput q pw).

Definition send_interjectionEventInput (ec : EventContext) (pw : partitionWorker)
  : option partitionWorker :=
  q <- chan_send interjectionEventInput_cap (interjectionEventInput pw) ec ;;
  Some (set_interjectionEventInput q pw).

(** [inter.callback()], [ec.complete()], [inter.tick()]. *)
Definition invoke (cb : nat) (pw : partitionWorker) : partitionWorker :=
  set_callbacks (callbacks pw ++ [cb]) pw.

Definition complete (ec : EventContext) (pw : partitionWorker) : partitionWorker :=
  set_completed (completed pw ++ [ec]) pw.

Definition tick (inter : interjection) (pw : partitionWorker) : partitionWorker :=
  set_ticks (ticks pw ++ [inter]) pw.

Definition run_callback (inter : interjection) (pw : partitionWorker) : partitionWorker :=
  match callback inter with
  | Some cb => invoke cb pw
  | None => pw
  end.

Definition scheduleInterjection (pw : partitionWorker) (inter : interjection)
  : option partitionWorker :=
  if isRevoked pw then Some (run_callback inter pw)
  else
    let pw := waiter_Add 1 pw in
    let ec := newInterjectionContext inter in
    let pw := created ec pw in
    pw <- acquire pw ;;
    let pw := addEventContext ec pw in
    send_interjectionEventInput ec pw.

(** The [select] with a [default] branch: a pending interjection is taken,
    otherwise nothing happens. *)
Definition interleaveInterjection (pw : partitionWorker) : option partitionWorker :=
  match interjectionInput pw with
  | ij :: q => scheduleInterjection (set_interjectionInput q pw) ij
  | [] => Some pw
  end.

(** The loop of [scheduleTxnAndExecution], run without any other goroutine
    taking a step in between. *)
Fixpoint scheduleTxnAndExecution_loop (pw : partitionWorker)
  (records : list (option kgo_Record)) : option partitionWorker :=
  match records with
  | [] => Some pw
  | record :: rest =>
      pw <- match record with
            | Some r =>
                if Offset r >=? highestOffset pw then
                  let ec := newEventContext r in
                  let pw := created ec pw in
                  pw <- acquire pw ;;
                  let pw := addEventContext ec pw in
                  send_eventInput ec pw
                else Some (waiter_Done pw)
            | None => Some (waiter_Done pw)
            end ;;
      pw <- interleaveInterjection pw ;;
      scheduleTxnAndExecution_loop pw rest
  end.

Definition scheduleTxnAndExecution (pw : partitionWorker)
  (records : list (option kgo_Record)) : option partitionWorker :=
  if isRevoked pw then Some pw
  else
    let pw := waiter_Add (Z.of_nat (List.length records)) pw in
    scheduleTxnAndExecution_loop pw records.

Definition processAsyncJob (pw : partitionWorker) (job : AsyncJob)
  : option partitionWorker :=
  match Finalize job with
  | Complete => release (complete (ctx job) pw)
  | _ => Some pw
  end.

(** [assignProducer]: [jobs] are the async jobs the [select] receives
    before [ec.producerChan] delivers [p]. *)
Fixpoint assignProducer (pw : partitionWorker) (ec : EventContext)
  (jobs : list AsyncJob) (p : option producerNode)
  : option (partitionWorker * EventContext) :=
  match jobs with
  | [] => Some (pw, assign p ec)
  | job :: jobs' =>
      pw <- processAsyncJob pw job ;;
      assignProducer pw ec jobs' p
  end.

(** [forwardToEventSource]: [st] is what [pw.eventSource.handleEvent(ec,
    record)] returns. *)
Definition forwardToEventSource (pw : partitionWorker) (ec : EventContext)
  (jobs : list AsyncJob) (p : option producerNode) (st : ExecutionState)
  : option partitionWorker :=
  a <- assignProducer pw ec jobs p ;;
  let pw := fst a in
  let ec := snd a in
  match producer ec with
  | None => release pw
  | Some _ =>
      let offset := EventContext_Offset ec in
      let pw := set_highestOffset (Int64.add offset 1) pw in
      let record := EventContext_Input ec in
      let pw := set_handled (handled pw ++ [(ec, record)]) pw in
      match st with
      | Complete => release (complete ec pw)
      | _ => Some pw
      end
  end.

Definition handleEvent (pw : partitionWorker) (ec : EventContext)
  (jobs : list AsyncJob) (p : option producerNode) (st : ExecutionState)
  : option (partitionWorker * bool) :=
  pw <- forwardToEventSource pw ec jobs p st ;;
  Some (pw, true).

(** [handleInterjection]: [st] is what [inter.interject(ec)] returns. *)
Definition handleInterjection (pw : partitionWorker) (ec : EventContext)
  (jobs : list AsyncJob) (p : option producerNode) (st : ExecutionState)
  : option partitionWorker :=
  inter <- ec_interjection ec ;;
  a <- assignProducer pw ec jobs p ;;
  let pw := fst a in
  let ec := snd a in
  match producer ec with
  | None =>
      pw <- release pw ;;
      Some (run_callback inter pw)
  | Some _ =>
      match st with
      | Complete =>
          pw <- release (complete ec pw) ;;
          Some (tick inter pw)
      | _ => Some pw
      end
  end.

(** ** The two goroutines of a worker

    [pushRecords] (ingress) and [work] (dispatch) run concurrently on the
    same worker.  A program point says where a goroutine stands; a step
    performs the statements up to the next program point.  The program
    points are set at the operations through which the goroutines and the
    environment interact: a send or a receive on a channel, the read and
    the write of [highestOffset], a test of the run status, a change of
    [revocationWaiter], the construction of a context.  In particular the
    test of [isRevoked] at the entry of [scheduleTxnAndExecution] and of
    [scheduleInterjection] is a step of its own: the environment may halt
    the worker between the test and the statement that follows it.
    ([pushRecords] tests [isRevoked] once more, right after it has
    received a batch; that test is taken together with the receive, since
    [scheduleTxnAndExecution] repeats it at its entry.)  The tear-down
    after [runStatus.Done()] (stop, revoked and stopped signals, closing of
    the channels) is left out. *)

(** Where [scheduleInterjection] returns to: the [select] of [pushRecords]
    ([None]), or the loop of [scheduleTxnAndExecution] with the records
    still to inspect. *)
Definition return_point : Set := option (list (option kgo_Record)).

Inductive ingress_pc : Set :=
| InSelect
| AtEntry (records : list (option kgo_Record))
| AtAdd (records : list (option kgo_Record))
| AtRecord (records : list (option kgo_Record))
| AtAcquire (ec : EventContext) (rest : list (option kgo_Record))
| AtRegister (ec : EventContext) (rest : list (option kgo_Record))
| AtEnqueue (ec : EventContext) (rest : list (option kgo_Record))
| AtInterleave (rest : list (option kgo_Record))
| IjEntry (inter : interjection) (ret : return_point)
| IjAdd (inter : interjection) (ret : return_point)
| IjNew (inter : interjection) (ret : return_point)
| IjAcquire (ec : EventContext) (ret : return_point)
| IjRegister (ec : EventContext) (ret : return_point)
| IjEnqueue (ec : EventContext) (ret : return_point).

Definition ret_pc (ret : return_point) : ingress_pc :=
  match ret with
  | None => InSelect
  | Some rest => AtRecord rest
  end.

Inductive dispatch_pc : Set :=
| InWork
| AssignEvent (ec : EventContext)
| HandlingEvent (ec : EventContext)
| AssignInterjection (ec : EventContext)
| Interjecting (ec : EventContext).

Record system : Set := {
  worker : partitionWorker;
  ingress : ingress_pc;
  dispatch : dispatch_pc
}.

(** The worker once [work] has started [pushRecords] and set [ready]. *)
Definition activated (pw : partitionWorker) : system :=
  {| worker := set_ready 1 pw; ingress := InSelect; dispatch := InWork |}.

Inductive action : Set :=
(* the environment *)
| ConsumerAdd (records : list (option kgo_Record))  (* pw.add(records) *)
| Revoke                                            (* pw.revoke() *)
| TimerFire (ij : interjection)                     (* interjectionInput <- ij *)
(* pushRecords *)
| PushRecords                                       (* case records := <-pw.partitionInput *)
| PushInterjection                                  (* case ij := <-pw.interjectionInput *)
| IngressStep                                       (* the next statement of the call in progress *)
(* work *)
| WorkEvent                                         (* case ec := <-pw.eventInput *)
| WorkInterjection                                  (* case ec := <-pw.interjectionEventInput *)
| WorkAsyncJob (job : AsyncJob)                     (* case job := <-pw.asyncCompleter.asyncJobs *)
| ProducerAssigned (p : option producerNode)        (* case ec.producer = <-ec.producerChan *)
| HandlerReturns (st : ExecutionState).             (* the user's handler or interjector returns *)

(** One step of the call that [pushRecords] is executing. *)
Definition ingress_step (pw : partitionWorker) (pc : ingress_pc)
  : option (partitionWorker * ingress_pc) :=
  match pc with
  | InSelect => None
  | AtEntry records =>
      if isRevoked pw then Some (pw, InSelect)
      else Some (pw, AtAdd records)
  | AtAdd records =>
      Some (waiter_Add (Z.of_nat (List.length records)) pw, AtRecord records)
  | AtRecord [] => Some (pw, InSelect)
  | AtRecord (record :: rest) =>
      match record with
      | Some r =>
          if Offset r >=? highestOffset pw then
            let ec := newEventContext r in
            Some (created ec pw, AtAcquire ec rest)
          else Some (waiter_Done pw, AtInterleave rest)
      | None => Some (waiter_Done pw, AtInterleave rest)
      end
  | AtAcquire ec rest =>
      pw <- acquire pw ;; Some (pw, AtRegister ec rest)
  | AtRegister ec rest =>
      Some (addEventContext ec pw, AtEnqueue ec rest)
  | AtEnqueue ec rest =>
      pw <- send_eventInput ec pw ;; Some (pw, AtInterleave rest)
  | AtInterleave rest =>
      match interjectionInput pw with
      | ij :: q => Some (set_interjectionInput q pw, IjEntry ij (Some rest))
      | [] => Some (pw, AtRecord rest)
      end
  | IjEntry inter ret =>
      if isRevoked pw then Some (run_callback inter pw, ret_pc ret)
      else Some (pw, IjAdd inter ret)
  | IjAdd inter ret =>
      Some (waiter_Add 1 pw, IjNew inter ret)
  | IjNew inter ret =>
      let ec := newInterjectionContext inter in
      Some (created ec pw, IjAcquire ec ret)
  | IjAcquire ec ret =>
      pw <- acquire pw ;; Some (pw, IjRegister ec ret)
  | IjRegister ec ret =>
      Some (addEventContext ec pw, IjEnqueue ec ret)
  | IjEnqueue ec ret =>
      pw <- send_interjectionEventInput ec pw ;; Some (pw, ret_pc ret)
  end.

Definition step (sys : system) (a : action) : option system :=
  let pw := worker sys in
  match a with
  | ConsumerAdd records =>
      pw <- add pw records ;;
      Some {| worker := pw; ingress := ingress sys; dispatch := dispatch sys |}
  | Revoke =>
      Some {| worker := revoke pw; ingress := ingress sys; dispatch := dispatch sys |}
  | TimerFire ij =>
      q <- chan_send interjectionInput_cap (interjectionInput pw) ij ;;
      Some {| worker := set_interjectionInput q pw;
              ingress := ingress sys; dispatch := dispatch sys |}
  | PushRecords =>
      match ingress sys, partitionInput pw with
      | InSelect, records :: q =>
          let pw := set_partitionInput q pw in
          Some {| worker := pw;
                  ingress := if isRevoked pw then InSelect else AtEntry records;
                  dispatch := dispatch sys |}
      | _, _ => None
      end
  | PushInterjection =>
      match ingress sys, interjectionInput pw with
      | InSelect, ij :: q =>
          Some {| worker := set_interjectionInput q pw;
                  ingress := IjEntry ij None; dispatch := dispatch sys |}
      | _, _ => None
      end
  | IngressStep =>
      r <- ingress_step pw (ingress sys) ;;
      Some {| worker := fst r; ingress := snd r; dispatch := dispatch sys |}
  | WorkEvent =>
      match dispatch sys, eventInput pw with
      | InWork, ec :: q =>
          Some {| worker := set_eventInput q pw;
                  ingress := ingress sys; dispatch := AssignEvent ec |}
      | _, _ => None
      end
  | WorkInterjection =>
      match dispatch sys, interjectionEventInput pw with
      | InWork, ec :: q =>
          Some {| worker := set_interjectionEventInput q pw;
                  ingress := ingress sys; dispatch := AssignInterjection ec |}
      | _, _ => None
      end
  | WorkAsyncJob job =>
      match dispatch sys with
      | InWork | AssignEvent _ | AssignInterjection _ =>
          pw <- processAsyncJob pw job ;;
          Some {| worker := pw; ingress := ingress sys; dispatch := dispatch sys |}
      | _ => None
      end
  | ProducerAssigned p =>
      match dispatch sys with
      | AssignEvent ec =>
          let ec := assign p ec in
          match producer ec with
          | None =>
              pw <- release pw ;;
              Some {| worker := pw; ingress := ingress sys; dispatch := InWork |}
          | Some _ =>
              let offset := EventContext_Offset ec in
              let pw := set_highestOffset (Int64.add offset 1) pw in
              let record := EventContext_Input ec in
              let pw := set_handled (handled pw ++ [(ec, record)]) pw in
              Some {| worker := pw; ingress := ingress sys;
                      dispatch := HandlingEvent ec |}
          end
      | AssignInterjection ec =>
          inter <- ec_interjection ec ;;
          let ec := assign p ec in
          match producer ec with
          | None =>
              pw <- release pw ;;
              Some {| worker := run_callback inter pw;
                      ingress := ingress sys; dispatch := InWork |}
          | Some _ =>
              Some {| worker := pw; ingress := ingress sys;
                      dispatch := Interjecting ec |}
          end
      | _ => None
      end
  | HandlerReturns st =>
      match dispatch sys with
      | HandlingEvent ec =>
          match st with
          | Complete =>
              pw <- release (complete ec pw) ;;
              Some {| worker := pw; ingress := ingress sys; dispatch := InWork |}
          | _ => Some {| worker := pw; ingress := ingress sys; dispatch := InWork |}
          end
      | Interjecting ec =>
          inter <- ec_interjection ec ;;
          match st with
          | Complete =>
              pw <- release (complete ec pw) ;;
              Some {| worker := tick inter pw;
                      ingress := ingress sys; dispatch := InWork |}
          | _ => Some {| worker := pw; ingress := ingress sys; dispatch := InWork |}
          end
      | _ => None
      end
  end.

(** A run: the actions taken one after the other; [None] when one of them
    is not enabled where it is attempted. *)
Fixpoint run (sys : system) (acts : list action) : option system :=
  match acts with
  | [] => Some sys
  | a :: acts' =>
      sys' <- step sys a ;;
      run sys' acts'
  end.

(** The records offered by the consumer during a run, in order. *)
Fixpoint offered (acts : list action) : list (option kgo_Record) :=
  match acts with
  | [] => []
  | ConsumerAdd records :: acts' => records ++ offered acts'
  | _ :: acts' => offered acts'
  end.

Fixpoint offsets (records : list (option kgo_Record)) : list Z :=
  match records with
  | [] => []
  | Some r :: rest => Offset r :: offsets rest
  | None :: rest => offsets rest
  end.

Definition context_offsets (ecs : list EventContext) : list Z :=
  map EventContext_Offset ecs.

Definition record_at (o : Z) : option kgo_Record := Some {| Offset := o |}.

(** ** Schedules and bookkeeping used in the statements *)

(** The five steps that admit the record at the head of the loop
    (inspection, token, registration with the pool, [eventInput],
    interleaving), and the two that drop it (inspection, interleaving),
    when no interjection is pending. *)
Definition accept_steps : list action :=
  [IngressStep; IngressStep; IngressStep; IngressStep; IngressStep].

Definition drop_steps : list action :=
  [IngressStep; IngressStep].

(** The dispatch loop takes the next context, is assigned producer [p] and
    the handler returns [st]. *)
Definition handle_steps (p : producerNode) (st : ExecutionState) : list action :=
  [WorkEvent; ProducerAssigned (Some p); HandlerReturns st].

(** A batch arrives and [scheduleTxnAndExecution] is entered: it passes
    the test of the run status and raises [revocationWaiter]. *)
Definition deliver_steps (records : list (option kgo_Record)) : list action :=
  [ConsumerAdd records; PushRecords; IngressStep; IngressStep].

Definition duplicate_batch : list (option kgo_Record) :=
  map record_at [5; 6; 7; 5; 6; 7].

(** The dispatch loop keeps pace: every admitted context is assigned a
    producer and handled before the next record is inspected. *)
Definition lockstep_schedule (p1 p2 p3 : producerNode) (st1 st2 st3 : ExecutionState)
  : list action :=
  deliver_steps duplicate_batch
    ++ accept_steps ++ handle_steps p1 st1
    ++ accept_steps ++ handle_steps p2 st2
    ++ accept_steps ++ handle_steps p3 st3
    ++ drop_steps ++ drop_steps ++ drop_steps ++ [IngressStep].

(** The scheduling loop runs through the whole batch before the pool has
    assigned the first producer. *)
Definition ahead_schedule (p : producerNode) : list action :=
  deliver_steps duplicate_batch
    ++ accept_steps ++ accept_steps ++ accept_steps
    ++ accept_steps ++ accept_steps ++ accept_steps ++ [IngressStep]
    ++ handle_steps p Complete ++ handle_steps p Complete ++ handle_steps p Complete
    ++ handle_steps p Complete ++ handle_steps p Complete ++ handle_steps p Complete.

(** Offsets of the record contexts that passed the inspection and whose
    write of [highestOffset] is still to come, oldest first: the one in
    the hands of the dispatch loop, those in [eventInput], the one in the
    hands of the scheduling loop. *)
Definition dispatch_held (pc : dispatch_pc) : list Z :=
  match pc with
  | AssignEvent ec => [EventContext_Offset ec]
  | _ => []
  end.

Definition ingress_held (pc : ingress_pc) : list Z :=
  match pc with
  | AtAcquire ec _ | AtRegister ec _ | AtEnqueue ec _ => [EventContext_Offset ec]
  | _ => []
  end.

Definition accepted (sys : system) : list Z :=
  dispatch_held (dispatch sys)
    ++ context_offsets (eventInput (worker sys))
    ++ ingress_held (ingress sys).

(** The records of the batch in progress that are still to be inspected. *)
Definition ingress_rest (pc : ingress_pc) : list (option kgo_Record) :=
  match pc with
  | InSelect => []
  | AtEntry r | AtAdd r | AtRecord r | AtInterleave r => r
  | AtAcquire _ r | AtRegister _ r | AtEnqueue _ r => r
  | IjEntry _ ret | IjAdd _ ret | IjNew _ ret
  | IjAcquire _ ret | IjRegister _ ret | IjEnqueue _ ret =>
      match ret with
      | Some r => r
      | None => []
      end
  end.

(** Offsets received and not yet inspected. *)
Definition unscheduled (sys : system) : list Z :=
  offsets (ingress_rest (ingress sys))
    ++ offsets (List.concat (partitionInput (worker sys))).

(** Offsets in the order in which the worker gets to see them. *)
Definition trail (sys : system) : list Z :=
  accepted sys ++ unscheduled sys.

(** An offset whose successor is still an [int64]. *)
Definition offset_ok (o : Z) : Prop :=
  Int64.min_int <= o < Int64.max_int.

(** [pushRecords] is not inside a scheduling call: it waits in its
    [select], or has taken a batch or an interjection from a channel and
    is about to test [isRevoked].  Every point past the entry test of
    [scheduleTxnAndExecution] or of [scheduleInterjection], and the entry
    of an interjection interleaved in a batch, is inside. *)
Definition outside_batch (pc : ingress_pc) : Prop :=
  match pc with
  | InSelect | AtEntry _ | IjEntry _ None => True
  | _ => False
  end.

(** What a revoked worker keeps fixed from one state to a later one: no
    context is constructed, none is admitted to the pool,
    [revocationWaiter] is not raised, no token is taken. *)
Definition quiet (pw pw' : partitionWorker) : Prop :=
  contexts pw' = contexts pw /\
  eosProducer pw' = eosProducer pw /\
  revocationWaiter pw' = revocationWaiter pw /\
  (maxPending pw' <= maxPending pw)%nat.

(** The invariant behind the monotonicity of [highestOffset]: the offsets
    the worker holds, followed by those still to be offered ([fut]), are
    in non-decreasing order and have an [int64] successor; and no admitted
    offset is more than one below [highestOffset]. *)
Definition ordered (sys : system) (fut : list Z) : Prop :=
  StronglySorted Z.le (trail sys ++ fut) /\
  Forall offset_ok (trail sys ++ fut) /\
  Forall (fun o => highestOffset (worker sys) <= o + 1) (accepted sys).

(** [sub l l']: [l] is [l'] with some elements left out. *)
Inductive sub : list Z -> list Z -> Prop :=
| sub_nil : sub [] []
| sub_keep : forall x l l', sub l l' -> sub (x :: l) (x :: l')
| sub_skip : forall x l l', sub l l' -> sub l (x :: l').

(** [n] steps of [pushRecords] in a row. *)
Definition ingress_steps (n : nat) : list action := repeat IngressStep n.

(** The steps of [work] on one event: the context is received, the async
    jobs [jobs] are served while the producer is awaited, the producer
    arrives, and, with a producer, the handler returns [st]. *)
Definition event_steps (jobs : list AsyncJob) (p : option producerNode)
  (st : ExecutionState) : list action :=
  WorkEvent :: map WorkAsyncJob jobs
    ++ ProducerAssigned p
    :: match p with
       | Some _ => [HandlerReturns st]
       | None => []
       end.

(** Concrete inputs for the examples. *)
Definition running : RunStatus := {| halted := false |}.

Definition example_eos : EosConfig := {| MaxBatchSize := 100 |}.

Definition fresh_worker : partitionWorker :=
  {| eosProducer := []; partitionInput := [];
     maxPending := 0; maxPending_cap := 8;
     interjectionInput := []; eventInput := []; eventInput_cap := 100;
     interjectionEventInput := [];
     runStatus := running; ready := 0;
     highestOffset := -1; revocationWaiter := 0;
     contexts := []; completed := []; handled := [];
     callbacks := []; ticks := [] |}.

Definition example_config (replicationFactor minInSync : Z)
  (deser txn : option unit) : EventSourceConfig unit unit unit :=
  {| GroupId := "orders";
     Topic := "events";
     StateStoreTopic := "";
     NumPartitions := 4;
     ReplicationFactor := replicationFactor;
     MinInSync := minInSync;
     SourceCluster := Some tt;
     StateCluster := None;
     CommitOffsets := true;
     EosConfig_ := example_eos;
     DeserializationErrorHandler := deser;
     TxnErrorHandler := txn |}.

(** A configuration that names the package's default deserialization
    handler itself, next to a transaction error handler of its own.
    Handlers are told apart by a [bool]; [true] is the default one. *)
Definition default_handler_config : EventSourceConfig unit bool unit :=
  {| GroupId := "orders";
     Topic := "events";
     StateStoreTopic := "";
     NumPartitions := 4;
     ReplicationFactor := 3;
     MinInSync := 2;
     SourceCluster := Some tt;
     StateCluster := None;
     CommitOffsets := true;
     EosConfig_ := example_eos;
     DeserializationErrorHandler := Some true;
     TxnErrorHandler := Some tt |}.

(** ** Further notions used in the statements *)


(** The configuration as the topic is created from it: replication factor
    and min-in-sync replaced by their normalized values. *)
Definition normalized {C D T : Type} (s : Source C D T) : Source C D T :=
  {| state := state s;
     config :=
       {| GroupId := GroupId (config s);
          Topic := Topic (config s);
          StateStoreTopic := StateStoreTopic (config s);
          NumPartitions := NumPartitions (config s);
          ReplicationFactor := replicationFactorConfig s;
          MinInSync := minInSyncConfig s;
          SourceCluster := SourceCluster (config s);
          StateCluster := StateCluster (config s);
          CommitOffsets := CommitOffsets (config s);
          EosConfig_ := EosConfig_ (config s);
          DeserializationErrorHandler := DeserializationErrorHandler (config s);
          TxnErrorHandler := TxnErrorHandler (config s) |} |}.

(** A source that differs from [s] in topic and group id only. *)
Definition renamed {C D T : Type} (topic groupId : string) (s : Source C D T)
  : Source C D T :=
  {| state := state s;
     config :=
       {| GroupId := groupId;
          Topic := topic;
          StateStoreTopic := StateStoreTopic (config s);
          NumPartitions := NumPartitions (config s);
          ReplicationFactor := ReplicationFactor (config s);
          MinInSync := MinInSync (config s);
          SourceCluster := SourceCluster (config s);
          StateCluster := StateCluster (config s);
          CommitOffsets := CommitOffsets (config s);
          EosConfig_ := EosConfig_ (config s);
          DeserializationErrorHandler := DeserializationErrorHandler (config s);
          TxnErrorHandler := TxnErrorHandler (config s) |} |}.


(** A record that passes the test of the scheduling loop on [pw], and one
    that fails it (a nil record fails it). *)
Definition passes (pw : partitionWorker) (record : option kgo_Record) : Prop :=
  match record with
  | Some r => highestOffset pw <= Offset r
  | None => False
  end.

Definition stale (pw : partitionWorker) (record : option kgo_Record) : Prop :=
  match record with
  | Some r => Offset r < highestOffset pw
  | None => True
  end.

(** The contexts of the non-nil records of a batch, in order. *)
Fixpoint record_contexts (records : list (option kgo_Record)) : list EventContext :=
  match records with
  | [] => []
  | Some r :: rest => newEventContext r :: record_contexts rest
  | None :: rest => record_contexts rest
  end.

Definition holds_record (ec : EventContext) : bool :=
  match input ec with
  | Some _ => true
  | None => false
  end.

(** The test of the scheduling loop against the offset [h]. *)
Definition inspect_ok (h : Z) (record : option kgo_Record) : bool :=
  match record with
  | Some r => Offset r >=? h
  | None => false
  end.

(** [pw'] is [pw] after the contexts [new] have been scheduled: each one
    constructed, given a token, handed to the pool and put on the channel
    of its kind, in this order; [revocationWaiter] counts them, on top of
    what it was raised by in advance ([owed]); the dispatch side of the
    worker is as it was. *)
Definition scheduled (owed : Z) (pw pw' : partitionWorker) (new : list EventContext)
  : Prop :=
  contexts pw' = contexts pw ++ new /\
  eosProducer pw' = eosProducer pw ++ new /\
  eventInput pw' = eventInput pw ++ filter holds_record new /\
  interjectionEventInput pw'
    = interjectionEventInput pw ++ filter (fun ec => negb (holds_record ec)) new /\
  revocationWaiter pw' = revocationWaiter pw + owed + Z.of_nat (List.length new) /\
  maxPending pw' = (maxPending pw + List.length new)%nat /\
  highestOffset pw' = highestOffset pw /\
  completed pw' = completed pw /\
  handled pw' = handled pw /\
  runStatus pw' = runStatus pw /\
  maxPending_cap pw' = maxPending_cap pw /\
  eventInput_cap pw' = eventInput_cap pw.

(** The jobs whose finalizer returns [Complete]. *)
Definition completing (jobs : list AsyncJob) : list AsyncJob :=
  filter (fun job => match Finalize job with Complete => true | _ => false end) jobs.


(** What [highestOffset] should hold if it follows the events forwarded to
    the handler: one more than the offset of the last of them, -1 when
    there is none. *)
Definition last_forwarded (pw : partitionWorker) : Z :=
  last (map (fun x => Int64.add (EventContext_Offset (fst x)) 1) (handled pw)) (-1).

(** The context that the ingress goroutine has constructed and not yet
    handed to the pool, if any; and whether it still has to take its
    token. *)
Definition unregistered (pc : ingress_pc) : list EventContext :=
  match pc with
  | AtAcquire ec _ | AtRegister ec _ | IjAcquire ec _ | IjRegister ec _ => [ec]
  | _ => []
  end.

Definition untokened (pc : ingress_pc) : nat :=
  match pc with
  | AtAcquire _ _ | IjAcquire _ _ => 1
  | _ => 0
  end.

(** What a step of the dispatch loop leaves alone, what a step of the
    ingress loop leaves alone, and what a step of the environment does. *)
Definition dispatch_frame (sys sys' : system) : Prop :=
  contexts (worker sys') = contexts (worker sys) /\
  eosProducer (worker sys') = eosProducer (worker sys) /\
  revocationWaiter (worker sys') = revocationWaiter (worker sys) /\
  partitionInput (worker sys') = partitionInput (worker sys) /\
  interjectionInput (worker sys') = interjectionInput (worker sys) /\
  runStatus (worker sys') = runStatus (worker sys) /\
  (maxPending (worker sys') <= maxPending (worker sys))%nat /\
  ingress sys' = ingress sys.

Definition ingress_frame (sys sys' : system) : Prop :=
  highestOffset (worker sys') = highestOffset (worker sys) /\
  completed (worker sys') = completed (worker sys) /\
  handled (worker sys') = handled (worker sys) /\
  ticks (worker sys') = ticks (worker sys) /\
  runStatus (worker sys') = runStatus (worker sys) /\
  (maxPending (worker sys) <= maxPending (worker sys'))%nat /\
  dispatch sys' = dispatch sys.

Definition environment_frame (sys sys' : system) : Prop :=
  highestOffset (worker sys') = highestOffset (worker sys) /\
  completed (worker sys') = completed (worker sys) /\
  handled (worker sys') = handled (worker sys) /\
  contexts (worker sys') = contexts (worker sys) /\
  eosProducer (worker sys') = eosProducer (worker sys) /\
  revocationWaiter (worker sys') = revocationWaiter (worker sys) /\
  maxPending (worker sys') = maxPending (worker sys) /\
  eventInput (worker sys') = eventInput (worker sys) /\
  ingress sys' = ingress sys /\
  dispatch sys' = dispatch sys.


(** Offsets of the record contexts constructed so far, in order. *)
Definition created_offsets (pw : partitionWorker) : list Z :=
  context_offsets (filter holds_record (contexts pw)).

(** A run for the examples: the batch [5, 6, 7] is scheduled whole, then
    the dispatch loop handles the first context to completion. *)
Definition example_run : list action :=
  deliver_steps [record_at 5; record_at 6; record_at 7]
    ++ accept_steps ++ accept_steps ++ accept_steps ++ [IngressStep]
    ++ handle_steps 0%nat Complete.

Definition example_interjection : interjection :=
  {| ij_id := 1%nat; callback := Some 7%nat |}.

(** * Properties *)

Lemma wrap_in_range : forall z, Int64.in_range z -> Int64.wrap z = z.
Proof.
  intros z [Hlo Hhi]. unfold Int64.wrap, Int64.min_int, Int64.max_int in *.
  rewrite Z.mod_small; lia.
Qed.

Lemma add_one_exact : forall o, offset_ok o -> Int64.add o 1 = o + 1.
Proof.
  intros o [Hlo Hhi]. unfold Int64.add. apply wrap_in_range.
  unfold Int64.in_range, Int64.min_int, Int64.max_int in *. lia.
Qed.

(** At the largest [int64] the successor wraps to the smallest. *)
Remark add_one_wraps : Int64.add Int64.max_int 1 = Int64.min_int.
Proof. reflexivity. Qed.

(** ** source.go *)

Section SourceProperties.

Context {Cluster DeserializationErrorHandlerFunc TxnErrorHandlerFunc : Type}.
Variable DefaultDeserializationErrorHandler : DeserializationErrorHandlerFunc.

Local Abbreviation Source := (Source Cluster DeserializationErrorHandlerFunc TxnErrorHandlerFunc).

(** C5 (amended).  [deserializationErrorHandler] is keyed on
    [config.TxnErrorHandler]: it returns the default handler whenever that
    field is nil, whatever [config.DeserializationErrorHandler] holds; when
    [TxnErrorHandler] is not nil it returns
    [config.DeserializationErrorHandler] as it is, nil included.  The
    default comes back exactly when [TxnErrorHandler] is nil or the
    configured deserialization handler is the default one itself. *)
Theorem deserializationErrorHandler_keyed_on_TxnErrorHandler :
  forall s : Source,
    (TxnErrorHandler (config s) = None ->
     deserializationErrorHandler DefaultDeserializationErrorHandler s
       = Some DefaultDeserializationErrorHandler) /\
    (TxnErrorHandler (config s) <> None ->
     deserializationErrorHandler DefaultDeserializationErrorHandler s
       = DeserializationErrorHandler (config s)) /\
    (TxnErrorHandler (config s) <> None ->
     DeserializationErrorHandler (config s) = None ->
     deserializationErrorHandler DefaultDeserializationErrorHandler s = None) /\
    (deserializationErrorHandler DefaultDeserializationErrorHandler s
       = Some DefaultDeserializationErrorHandler <->
     TxnErrorHandler (config s) = None \/
     DeserializationErrorHandler (config s) = Some DefaultDeserializationErrorHandler).
Proof.
  intros s. unfold deserializationErrorHandler.
  destruct (TxnErrorHandler (config s)) as [h|].
  - repeat split; intros; try congruence.
    + right. assumption.
    + destruct H as [H | H]; [discriminate | exact H].
  - repeat split; intros; try congruence. left. reflexivity.
Qed.

(** C6.  [shouldMarkCommit] is false for every source, [CommitOffsets]
    set or not. *)
Theorem shouldMarkCommit_always_false :
  forall s : Source, shouldMarkCommit s = false.
Proof. intros s. reflexivity. Qed.

(** C7.  [replicationFactorConfig] is 1 for a replication factor of 0 or
    less and the configured value otherwise.  [minInSyncConfig] is 1 when
    that normalized factor is at most 1; else [ReplicationFactor - 1] when
    [MinInSync] reaches the normalized factor; else [MinInSync]. *)
Theorem replication_and_minInSync_normalization :
  forall s : Source,
    config_ints_in_range (config s) ->
    (ReplicationFactor (config s) <= 0 -> replicationFactorConfig s = 1) /\
    (0 < ReplicationFactor (config s) ->
     replicationFactorConfig s = ReplicationFactor (config s)) /\
    (replicationFactorConfig s <= 1 -> minInSyncConfig s = 1) /\
    (1 < replicationFactorConfig s ->
     MinInSync (config s) >= replicationFactorConfig s ->
     minInSyncConfig s = ReplicationFactor (config s) - 1) /\
    (1 < replicationFactorConfig s ->
     MinInSync (config s) < replicationFactorConfig s ->
     minInSyncConfig s = MinInSync (config s)).
Proof.
  intros s (_ & Hrf & _).
  unfold minInSyncConfig, replicationFactorConfig.
  destruct (Z.leb_spec (ReplicationFactor (config s)) 0) as [H0|H0].
  - repeat split; intros; try lia; reflexivity.
  - repeat split; intros; try lia.
    + destruct (Z.leb_spec (ReplicationFactor (config s)) 1); [reflexivity | lia].
    + destruct (Z.leb_spec (ReplicationFactor (config s)) 1); [lia |].
      destruct (Z.geb_spec (MinInSync (config s)) (ReplicationFactor (config s))); [| lia].
      unfold Int64.sub. apply wrap_in_range.
      unfold Int64.in_range, Int64.min_int, Int64.max_int in *. lia.
    + destruct (Z.leb_spec (ReplicationFactor (config s)) 1); [lia |].
      destruct (Z.geb_spec (MinInSync (config s)) (ReplicationFactor (config s))); [lia |].
      reflexivity.
Qed.

(** C8.  The commit-log topic is ["gkes_commit_log_"] followed by the
    group id; the state-store topic is the configured one when it is not
    empty, and ["gkes_change_log_"], the topic, ["_"] and the group id
    otherwise. *)
Theorem topic_names :
  forall s : Source,
    CommitLogTopicNameForGroupId s
      = ("gkes_commit_log_" ++ GroupId (config s))%string /\
    (StateStoreTopic (config s) <> EmptyString ->
     StateStoreTopicName s = StateStoreTopic (config s)) /\
    (StateStoreTopic (config s) = EmptyString ->
     StateStoreTopicName s
       = ("gkes_change_log_" ++ Topic (config s) ++ "_" ++ GroupId (config s))%string).
Proof.
  intros s. unfold CommitLogTopicNameForGroupId, StateStoreTopicName.
  split; [reflexivity |].
  destruct (StateStoreTopic (config s)) as [|c rest]; split; intros H;
    try congruence; reflexivity.
Qed.

(** C9.  With a replication factor above 1 and [MinInSync] below it,
    [minInSyncConfig] returns [MinInSync] as configured, be it zero or
    negative: nothing raises it to 1. *)
Theorem minInSyncConfig_no_lower_clamp :
  forall s : Source,
    1 < ReplicationFactor (config s) ->
    MinInSync (config s) < ReplicationFactor (config s) ->
    minInSyncConfig s = MinInSync (config s).
Proof.
  intros s H1 H2. unfold minInSyncConfig, replicationFactorConfig.
  destruct (Z.leb_spec (ReplicationFactor (config s)) 0); [lia |].
  destruct (Z.leb_spec (ReplicationFactor (config s)) 1); [lia |].
  destruct (Z.geb_spec (MinInSync (config s)) (ReplicationFactor (config s))); [lia |].
  reflexivity.
Qed.

(** C10.  [stateCluster] is the source cluster when no state cluster is
    configured, and the state cluster otherwise. *)
Theorem stateCluster_defaults_to_SourceCluster :
  forall s : Source,
    (StateCluster (config s) = None -> stateCluster s = SourceCluster (config s)) /\
    (StateCluster (config s) <> None -> stateCluster s = StateCluster (config s)).
Proof.
  intros s. unfold stateCluster.
  destruct (StateCluster (config s)); split; intros; congruence.
Qed.

End SourceProperties.

(** ** Construction *)

(** A new worker has seen no offset, holds nothing and owes nothing; its
    [eventInput] has room for at least 100 contexts. *)
Lemma newPartitionWorker_initial :
  forall parent eosConfig maxPendingItems pw,
    newPartitionWorker parent eosConfig maxPendingItems = Some pw ->
    highestOffset pw = -1 /\
    revocationWaiter pw = 0 /\
    maxPending pw = 0%nat /\
    maxPending_cap pw = Z.to_nat maxPendingItems /\
    (100 <= eventInput_cap pw)%nat /\
    eventInput pw = [] /\
    partitionInput pw = [] /\
    contexts pw = [] /\
    eosProducer pw = [] /\
    isRevoked pw = halted parent.
Proof.
  intros parent eosConfig n pw. unfold newPartitionWorker.
  destruct (n <? 0); [discriminate |].
  intros H; injection H as <-. cbn. repeat split.
  - unfold sak_Max.
    destruct (Z.ltb_spec (Int64.div (MaxBatchSize eosConfig) 10) 100); lia.
  - unfold isRevoked, Running, Fork. cbn. apply negb_involutive.
Qed.

(** ** The dispatch loop *)

Lemma release_some :
  forall pw, (0 < maxPending pw)%nat ->
    release pw = Some (set_maxPending (maxPending pw - 1) pw).
Proof.
  intros pw H. unfold release. destruct (maxPending pw) as [|n]; [lia |].
  replace (S n - 1)%nat with n by lia. reflexivity.
Qed.

Lemma processAsyncJob_frame :
  forall pw job pw',
    processAsyncJob pw job = Some pw' ->
    highestOffset pw' = highestOffset pw /\
    handled pw' = handled pw /\
    contexts pw' = contexts pw /\
    runStatus pw' = runStatus pw.
Proof.
  intros pw job pw'. unfold processAsyncJob, release.
  destruct (Finalize job); cbn.
  - destruct (maxPending pw); [discriminate |].
    intros H. injection H as <-. cbn. auto.
  - intros H; injection H as <-; auto.
  - intros H; injection H as <-; auto.
  - intros H; injection H as <-; auto.
Qed.

Lemma assignProducer_frame :
  forall jobs pw ec p pw1 ec1,
    assignProducer pw ec jobs p = Some (pw1, ec1) ->
    ec1 = assign p ec /\
    highestOffset pw1 = highestOffset pw /\
    handled pw1 = handled pw /\
    contexts pw1 = contexts pw.
Proof.
  induction jobs as [|job jobs IH]; intros pw ec p pw1 ec1; cbn.
  - intros H. injection H as <- <-. auto.
  - destruct (processAsyncJob pw job) as [pw2|] eqn:E; [| discriminate].
    intros H. apply IH in H. apply processAsyncJob_frame in E.
    destruct H as (-> & H1 & H2 & H3), E as (E1 & E2 & E3 & _).
    repeat split; congruence.
Qed.

(** C4.  [handleEvent], through [forwardToEventSource], first waits for
    the producer assignment ([assignProducer], which leaves [highestOffset]
    alone).  From the state [pw1] the wait ends in: with a nil producer one
    [maxPending] token is released, [highestOffset] stays, the handler is
    not called; with a producer [highestOffset] becomes [ec.Offset()+1]
    and the handler is called; the context is marked complete and one token
    released exactly when the handler returns [Complete], otherwise the
    token stays held and the context is not completed. *)
Theorem handleEvent_forwards_to_event_source :
  forall pw ec jobs p st pw1 ec1,
    assignProducer pw ec jobs p = Some (pw1, ec1) ->
    (0 < maxPending pw1)%nat ->
    exists pw',
      handleEvent pw ec jobs p st = Some (pw', true) /\
      match p with
      | None =>
          maxPending pw' = (maxPending pw1 - 1)%nat /\
          highestOffset pw' = highestOffset pw /\
          handled pw' = handled pw /\
          completed pw' = completed pw1
      | Some _ =>
          highestOffset pw' = Int64.add (EventContext_Offset ec) 1 /\
          (offset_ok (EventContext_Offset ec) ->
           highestOffset pw' = EventContext_Offset ec + 1) /\
          handled pw' = handled pw ++ [(ec1, EventContext_Input ec)] /\
          (st = Complete ->
           completed pw' = completed pw1 ++ [ec1] /\
           maxPending pw' = (maxPending pw1 - 1)%nat) /\
          (st <> Complete ->
           completed pw' = completed pw1 /\
           maxPending pw' = maxPending pw1)
      end.
Proof.
  intros pw ec jobs p st pw1 ec1 Hassign Htok.
  destruct (assignProducer_frame _ _ _ _ _ _ Hassign) as (-> & Hh & Hhd & _).
  unfold handleEvent, forwardToEventSource. rewrite Hassign. cbn [fst snd].
  destruct p as [n|]; cbn [producer assign].
  - destruct st.
    + rewrite release_some by exact Htok. eexists. split; [reflexivity |].
      cbn. repeat split; try congruence.
      * intros Hok. apply add_one_exact. exact Hok.
      * rewrite Hhd. reflexivity.
    + eexists. split; [reflexivity |]. cbn. repeat split; try congruence.
      * intros Hok. apply add_one_exact. exact Hok.
      * rewrite Hhd. reflexivity.
    + eexists. split; [reflexivity |]. cbn. repeat split; try congruence.
      * intros Hok. apply add_one_exact. exact Hok.
      * rewrite Hhd. reflexivity.
    + eexists. split; [reflexivity |]. cbn. repeat split; try congruence.
      * intros Hok. apply add_one_exact. exact Hok.
      * rewrite Hhd. reflexivity.
  - rewrite release_some by exact Htok. eexists. split; [reflexivity |].
    cbn. repeat split; congruence.
Qed.

(** ** Revocation *)

Lemma processAsyncJob_tokens :
  forall pw job pw',
    processAsyncJob pw job = Some pw' ->
    (maxPending pw' <= maxPending pw)%nat /\
    revocationWaiter pw' = revocationWaiter pw /\
    eosProducer pw' = eosProducer pw.
Proof.
  intros pw job pw'. unfold processAsyncJob, release.
  destruct (Finalize job); cbn.
  - destruct (maxPending pw) eqn:E; [discriminate |].
    intros H. injection H as <-. cbn. repeat split. lia.
  - intros H; injection H as <-; auto.
  - intros H; injection H as <-; auto.
  - intros H; injection H as <-; auto.
Qed.

Lemma release_frame :
  forall pw pw',
    release pw = Some pw' ->
    (maxPending pw' <= maxPending pw)%nat /\
    revocationWaiter pw' = revocationWaiter pw /\
    eosProducer pw' = eosProducer pw /\
    contexts pw' = contexts pw /\
    runStatus pw' = runStatus pw /\
    highestOffset pw' = highestOffset pw.
Proof.
  intros pw pw'. unfold release. destruct (maxPending pw) eqn:E; [discriminate |].
  intros H. injection H as <-. cbn. repeat split. lia.
Qed.

Lemma quiet_refl : forall pw, quiet pw pw.
Proof. intros pw. unfold quiet. auto. Qed.

Lemma quiet_trans : forall a b c, quiet a b -> quiet b c -> quiet a c.
Proof.
  unfold quiet. intros a b c (A1 & A2 & A3 & A4) (B1 & B2 & B3 & B4).
  repeat split; try congruence. lia.
Qed.

Ltac done_quiet :=
  cbn; unfold quiet; cbn; repeat split; auto.

Lemma step_once_revoked :
  forall sys a sys',
    isRevoked (worker sys) = true ->
    outside_batch (ingress sys) ->
    step sys a = Some sys' ->
    isRevoked (worker sys') = true /\
    outside_batch (ingress sys') /\
    quiet (worker sys) (worker sys').
Proof.
  intros [pw ipc dpc] a sys' Hrev Hout. cbn [worker ingress dispatch] in *.
  destruct a; cbn [step worker ingress dispatch].
  - (* ConsumerAdd *)
    unfold add. rewrite Hrev. intros H; injection H as <-; cbn.
    done_quiet.
  - (* Revoke *)
    intros H; injection H as <-; cbn. done_quiet.
  - (* TimerFire *)
    destruct (chan_send _ _ _); [| discriminate].
    intros H; injection H as <-; cbn. done_quiet.
  - (* PushRecords *)
    destruct ipc; try discriminate.
    destruct (partitionInput pw) as [|records q]; [discriminate |].
    intros H; injection H as <-; cbn.
    change (isRevoked (set_partitionInput q pw)) with (isRevoked pw).
    rewrite Hrev. cbn. done_quiet.
  - (* PushInterjection *)
    destruct ipc; try discriminate. destruct (interjectionInput pw); [discriminate |].
    intros H; injection H as <-; cbn. done_quiet.
  - (* IngressStep *)
    destruct ipc as [| | | | | | | |inter [rest|]| | | | |]; cbn in Hout;
      try contradiction;
      cbn [ingress_step]; try discriminate.
    + rewrite Hrev. intros H; injection H as <-; cbn. done_quiet.
    + rewrite Hrev. intros H; injection H as <-; cbn.
      unfold run_callback. destruct (callback inter); cbn; done_quiet.
  - (* WorkEvent *)
    destruct dpc; try discriminate. destruct (eventInput pw); [discriminate |].
    intros H; injection H as <-; cbn. done_quiet.
  - (* WorkInterjection *)
    destruct dpc; try discriminate.
    destruct (interjectionEventInput pw); [discriminate |].
    intros H; injection H as <-; cbn. done_quiet.
  - (* WorkAsyncJob *)
    assert (Hjob : forall pw1, processAsyncJob pw job = Some pw1 ->
              isRevoked pw1 = true /\ quiet pw pw1).
    { intros pw1 E. destruct (processAsyncJob_frame _ _ _ E) as (_ & _ & Hc & Hr).
      destruct (processAsyncJob_tokens _ _ _ E) as (Ht & Hw & Hp).
      unfold isRevoked, quiet in *. rewrite Hr. auto. }
    destruct dpc; try discriminate;
      (destruct (processAsyncJob pw job) as [pw1|] eqn:E; [| discriminate]);
      intros H; injection H as <-; cbn; destruct (Hjob pw1 eq_refl); auto.
  - (* ProducerAssigned *)
    assert (Hrel : forall pw1, release pw = Some pw1 ->
              isRevoked pw1 = true /\ quiet pw pw1).
    { intros pw1 E. destruct (release_frame _ _ E) as (Ht & Hw & Hp & Hc & Hr & _).
      unfold isRevoked, quiet in *. rewrite Hr. auto. }
    destruct dpc; try discriminate.
    + destruct p; cbn.
      * intros H; injection H as <-; cbn. done_quiet.
      * destruct (release pw) as [pw1|] eqn:E; [| discriminate].
        intros H; injection H as <-; cbn. destruct (Hrel pw1 eq_refl); auto.
    + destruct (ec_interjection ec) as [inter|]; [| discriminate].
      destruct p; cbn.
      * intros H; injection H as <-; cbn. done_quiet.
      * destruct (release pw) as [pw1|] eqn:E; [| discriminate].
        intros H; injection H as <-; cbn. destruct (Hrel pw1 eq_refl) as [Hr Hq].
        unfold run_callback. destruct (callback inter); cbn; auto.
  - (* HandlerReturns *)
    assert (Hrel : forall ec pw1, release (complete ec pw) = Some pw1 ->
              isRevoked pw1 = true /\ quiet pw pw1).
    { intros ec pw1 E. destruct (release_frame _ _ E) as (Ht & Hw & Hp & Hc & Hr & _).
      unfold isRevoked, quiet in *. rewrite Hr. cbn in *. auto. }
    destruct dpc; try discriminate.
    + destruct st;
        try (intros H; injection H as <-; cbn; done_quiet).
      destruct (release (complete ec pw)) as [pw1|] eqn:E; [| discriminate].
      intros H; injection H as <-; cbn. destruct (Hrel ec pw1 E); auto.
    + destruct (ec_interjection ec) as [inter|]; [| discriminate].
      destruct st;
        try (intros H; injection H as <-; cbn; done_quiet).
      destruct (release (complete ec pw)) as [pw1|] eqn:E; [| discriminate].
      intros H; injection H as <-; cbn. destruct (Hrel ec pw1 E); auto.
Qed.

Lemma run_once_revoked :
  forall acts sys sys',
    isRevoked (worker sys) = true ->
    outside_batch (ingress sys) ->
    run sys acts = Some sys' ->
    isRevoked (worker sys') = true /\
    outside_batch (ingress sys') /\
    quiet (worker sys) (worker sys').
Proof.
  induction acts as [|a acts IH]; intros sys sys' Hrev Hout; cbn.
  - intros H; injection H as <-. auto using quiet_refl.
  - destruct (step sys a) as [sys1|] eqn:E; [| discriminate].
    intros H. destruct (step_once_revoked _ _ _ Hrev Hout E) as (R1 & O1 & Q1).
    destruct (IH _ _ R1 O1 H) as (R2 & O2 & Q2).
    eauto using quiet_trans.
Qed.

(** C3 (amended).  On a revoked worker, [add] returns without sending on
    [partitionInput]; [scheduleTxnAndExecution] returns at once, the
    worker untouched; [scheduleInterjection] builds no context, takes no
    token, leaves [revocationWaiter] alone and runs the one-shot callback
    when there is one.  And from any state in which the worker is revoked
    and [pushRecords] is not past the entry test of a scheduling call
    ([outside_batch]), no run ever constructs a context, admits one to the
    pool, raises [revocationWaiter] or takes a token.  A call of
    [scheduleTxnAndExecution] or of [scheduleInterjection] that passed its
    entry test before the halt is not covered: it goes on to its end. *)
Theorem no_scheduling_once_revoked :
  forall pw,
    isRevoked pw = true ->
    (forall records, add pw records = Some pw) /\
    (forall records, scheduleTxnAndExecution pw records = Some pw) /\
    (forall inter,
       exists pw',
         scheduleInterjection pw inter = Some pw' /\
         quiet pw pw' /\
         maxPending pw' = maxPending pw /\
         interjectionEventInput pw' = interjectionEventInput pw /\
         callbacks pw' = match callback inter with
                         | Some cb => callbacks pw ++ [cb]
                         | None => callbacks pw
                         end) /\
    (forall ipc dpc acts sys',
       outside_batch ipc ->
       run {| worker := pw; ingress := ipc; dispatch := dpc |} acts = Some sys' ->
       isRevoked (worker sys') = true /\ quiet pw (worker sys')).
Proof.
  intros pw Hrev. split; [| split; [| split]].
  - intros records. unfold add. rewrite Hrev. reflexivity.
  - intros records. unfold scheduleTxnAndExecution. rewrite Hrev. reflexivity.
  - intros inter. unfold scheduleInterjection. rewrite Hrev.
    eexists. split; [reflexivity |].
    unfold run_callback. destruct (callback inter); done_quiet.
  - intros ipc dpc acts sys' Hout Hrun.
    destruct (run_once_revoked acts
                {| worker := pw; ingress := ipc; dispatch := dpc |} sys'
                Hrev Hout Hrun) as (R & _ & Q).
    split; assumption.
Qed.

(** ** Repeated offsets in one batch *)

(** C1 (amended).  The batch [5,6,7,5,6,7] on a fresh worker whose pool
    allows three pending items: when the dispatch loop is assigned a
    producer for each admitted context, and has handled it, before the
    scheduling loop inspects the next record, three contexts (offsets 5,
    6, 7) are built and admitted to the pool, [highestOffset] ends at 8
    and [revocationWaiter] has gone up by 3, whatever the handler
    returns. *)
Theorem duplicate_suppression_in_lockstep :
  forall parent eosConfig maxPendingItems pw0 p1 p2 p3 st1 st2 st3,
    halted parent = false ->
    3 <= maxPendingItems ->
    newPartitionWorker parent eosConfig maxPendingItems = Some pw0 ->
    exists sys,
      run (activated pw0) (lockstep_schedule p1 p2 p3 st1 st2 st3) = Some sys /\
      context_offsets (contexts (worker sys)) = [5; 6; 7] /\
      context_offsets (eosProducer (worker sys)) = [5; 6; 7] /\
      highestOffset (worker sys) = 8 /\
      revocationWaiter (worker sys) = revocationWaiter pw0 + 3 /\
      eventInput (worker sys) = [] /\
      ingress sys = InSelect /\
      dispatch sys = InWork.
Proof.
  intros [h] eosConfig n pw0 p1 p2 p3 st1 st2 st3 Hrun Hn. cbn in Hrun. subst h.
  unfold newPartitionWorker.
  destruct (Z.ltb_spec n 0) as [Hneg|_]; [lia |].
  intros H; injection H as <-.
  assert (Hcap : exists k, Z.to_nat n = S (S (S k))).
  { exists (Z.to_nat n - 3)%nat. lia. }
  assert (Hin : exists k,
             Z.to_nat (sak_Max (Int64.div (MaxBatchSize eosConfig) 10) 100) = S k).
  { unfold sak_Max.
    destruct (Z.ltb_spec (Int64.div (MaxBatchSize eosConfig) 10) 100) as [Hlt|Hge].
    - exists 99%nat. reflexivity.
    - exists (Z.to_nat (Int64.div (MaxBatchSize eosConfig) 10) - 1)%nat. lia. }
  destruct Hcap as [k ->], Hin as [k' ->].
  destruct st1, st2, st3; eexists; (split; [vm_compute; reflexivity |]);
    vm_compute; repeat split; reflexivity.
Qed.

(** ** Calls and steps

    The functions above are the runs of the step system in which no
    other goroutine moves in between. *)

Lemma run_app :
  forall a b sys,
    run sys (a ++ b) = (sys' <- run sys a ;; run sys' b).
Proof.
  induction a as [|x a IH]; intros b sys; cbn; [reflexivity |].
  destruct (step sys x); [apply IH | reflexivity].
Qed.

Lemma ingress_steps_chain :
  forall n m s1 s2 s3,
    run s1 (ingress_steps n) = Some s2 ->
    run s2 (ingress_steps m) = Some s3 ->
    run s1 (ingress_steps (n + m)) = Some s3.
Proof.
  intros n m s1 s2 s3 H1 H2. unfold ingress_steps in *.
  rewrite repeat_app, run_app, H1. exact H2.
Qed.

Lemma scheduleInterjection_as_steps :
  forall pw inter pw' ret dpc,
    scheduleInterjection pw inter = Some pw' ->
    exists n,
      run {| worker := pw; ingress := IjEntry inter ret; dispatch := dpc |}
          (ingress_steps n)
      = Some {| worker := pw'; ingress := ret_pc ret; dispatch := dpc |}.
Proof.
  intros pw inter pw' ret dpc. unfold scheduleInterjection.
  destruct (isRevoked pw) eqn:Hrev.
  - intros H; injection H as <-. exists 1%nat. cbn. rewrite Hrev. reflexivity.
  - destruct (acquire _) as [pw1|] eqn:Hacq; [| discriminate].
    intros Hsend. exists 6%nat. cbn. rewrite Hrev. cbn. rewrite Hacq. cbn.
    rewrite Hsend. reflexivity.
Qed.

Lemma interleaveInterjection_as_steps :
  forall pw pw' rest dpc,
    interleaveInterjection pw = Some pw' ->
    exists n,
      run {| worker := pw; ingress := AtInterleave rest; dispatch := dpc |}
          (ingress_steps n)
      = Some {| worker := pw'; ingress := AtRecord rest; dispatch := dpc |}.
Proof.
  intros pw pw' rest dpc. unfold interleaveInterjection.
  destruct (interjectionInput pw) as [|ij q] eqn:Hq.
  - intros H; injection H as <-. exists 1%nat. cbn. rewrite Hq. reflexivity.
  - intros H.
    destruct (scheduleInterjection_as_steps _ _ _ (Some rest) dpc H) as [n Hn].
    exists (1 + n)%nat. eapply ingress_steps_chain; [| exact Hn].
    cbn. rewrite Hq. reflexivity.
Qed.

Lemma scheduleTxnAndExecution_loop_as_steps :
  forall records pw pw' dpc,
    scheduleTxnAndExecution_loop pw records = Some pw' ->
    exists n,
      run {| worker := pw; ingress := AtRecord records; dispatch := dpc |}
          (ingress_steps n)
      = Some {| worker := pw'; ingress := InSelect; dispatch := dpc |}.
Proof.
  induction records as [|record rest IH]; intros pw pw' dpc; cbn [scheduleTxnAndExecution_loop].
  - intros H; injection H as <-. exists 1%nat. reflexivity.
  - destruct record as [r|].
    + destruct (Offset r >=? highestOffset pw) eqn:Hge.
      * destruct (acquire _) as [pw1|] eqn:Hacq; [| discriminate].
        destruct (send_eventInput _ _) as [pw2|] eqn:Hsend; [| discriminate].
        destruct (interleaveInterjection pw2) as [pw3|] eqn:Hint; [| discriminate].
        intros Hloop.
        destruct (interleaveInterjection_as_steps _ _ rest dpc Hint) as [n1 H1].
        destruct (IH _ _ dpc Hloop) as [n2 H2].
        exists (4 + (n1 + n2))%nat.
        eapply ingress_steps_chain; [| eapply ingress_steps_chain; eassumption].
        cbn. rewrite Hge. cbn. rewrite Hacq. cbn. rewrite Hsend. reflexivity.
      * destruct (interleaveInterjection _) as [pw3|] eqn:Hint; [| discriminate].
        intros Hloop.
        destruct (interleaveInterjection_as_steps _ _ rest dpc Hint) as [n1 H1].
        destruct (IH _ _ dpc Hloop) as [n2 H2].
        exists (1 + (n1 + n2))%nat.
        eapply ingress_steps_chain; [| eapply ingress_steps_chain; eassumption].
        cbn. rewrite Hge. reflexivity.
    + destruct (interleaveInterjection _) as [pw3|] eqn:Hint; [| discriminate].
      intros Hloop.
      destruct (interleaveInterjection_as_steps _ _ rest dpc Hint) as [n1 H1].
      destruct (IH _ _ dpc Hloop) as [n2 H2].
      exists (1 + (n1 + n2))%nat.
      eapply ingress_steps_chain; [| eapply ingress_steps_chain; eassumption].
      reflexivity.
Qed.

(** A call of [scheduleTxnAndExecution] that no other goroutine interferes
    with is a run of ingress steps from its entry to the [select]. *)
Lemma scheduleTxnAndExecution_as_steps :
  forall records pw pw' dpc,
    scheduleTxnAndExecution pw records = Some pw' ->
    exists n,
      run {| worker := pw; ingress := AtEntry records; dispatch := dpc |}
          (ingress_steps n)
      = Some {| worker := pw'; ingress := InSelect; dispatch := dpc |}.
Proof.
  intros records pw pw' dpc. unfold scheduleTxnAndExecution.
  destruct (isRevoked pw) eqn:Hrev.
  - intros H; injection H as <-. exists 1%nat. cbn. rewrite Hrev. reflexivity.
  - intros Hloop.
    destruct (scheduleTxnAndExecution_loop_as_steps _ _ _ dpc Hloop) as [n Hn].
    exists (2 + n)%nat. eapply (ingress_steps_chain 2); [| exact Hn].
    cbn. rewrite Hrev. reflexivity.
Qed.

Lemma assignProducer_as_steps :
  forall jobs pw ec p pw1 ec1 ipc,
    assignProducer pw ec jobs p = Some (pw1, ec1) ->
    run {| worker := pw; ingress := ipc; dispatch := AssignEvent ec |}
        (map WorkAsyncJob jobs)
    = Some {| worker := pw1; ingress := ipc; dispatch := AssignEvent ec |}.
Proof.
  induction jobs as [|job jobs IH]; intros pw ec p pw1 ec1 ipc; cbn.
  - intros H; injection H as <- _. reflexivity.
  - destruct (processAsyncJob pw job) as [pw2|]; [| discriminate].
    intros H. eapply IH. exact H.
Qed.

(** [handleEvent] on the context at the head of [eventInput] is the run of
    the dispatch loop that takes it. *)
Lemma handleEvent_as_steps :
  forall pw ec q jobs p st pw' ipc,
    eventInput pw = ec :: q ->
    handleEvent (set_eventInput q pw) ec jobs p st = Some (pw', true) ->
    run {| worker := pw; ingress := ipc; dispatch := InWork |}
        (event_steps jobs p st)
    = Some {| worker := pw'; ingress := ipc; dispatch := InWork |}.
Proof.
  intros pw ec q jobs p st pw' ipc Hq. unfold handleEvent, forwardToEventSource.
  destruct (assignProducer _ ec jobs p) as [[pw1 ec1]|] eqn:Ha; [| discriminate].
  pose proof (assignProducer_as_steps _ _ _ _ _ _ ipc Ha) as Hjobs.
  destruct (assignProducer_frame _ _ _ _ _ _ Ha) as (-> & _).
  cbn [fst snd]. unfold event_steps. cbn [run step worker dispatch ingress].
  rewrite Hq. rewrite run_app, Hjobs.
  destruct p as [n|]; cbn.
  - destruct st; cbn.
    + destruct (release _) as [pw2|]; [| discriminate].
      intros H; injection H as <-. reflexivity.
    + intros H; injection H as <-. reflexivity.
    + intros H; injection H as <-. reflexivity.
    + intros H; injection H as <-. reflexivity.
  - destruct (release pw1) as [pw2|]; [| discriminate].
    intros H; injection H as <-. reflexivity.
Qed.

(** ** The order of offsets *)

Lemma offsets_app : forall a b, offsets (a ++ b) = offsets a ++ offsets b.
Proof.
  induction a as [|[r|] a IH]; intros b; cbn; rewrite ?IH; reflexivity.
Qed.

Lemma offered_app : forall a b, offered (a ++ b) = offered a ++ offered b.
Proof.
  induction a as [|x a IH]; intros b; cbn; [reflexivity |].
  destruct x; rewrite ?IH, <- ?app_assoc; reflexivity.
Qed.

Lemma sub_refl : forall l, sub l l.
Proof. induction l; constructor; assumption. Qed.

Lemma sub_app_l : forall a l l', sub l l' -> sub (a ++ l) (a ++ l').
Proof. induction a; intros; cbn; [assumption | constructor; auto]. Qed.

Lemma sub_drop : forall m l l', sub l l' -> sub l (m ++ l').
Proof. induction m; intros; cbn; [assumption | constructor; auto]. Qed.

Lemma sub_forall : forall (P : Z -> Prop) l l', sub l l' -> Forall P l' -> Forall P l.
Proof.
  induction 1 as [|x l l' Hsub IH|x l l' Hsub IH]; intros HP; [constructor | |].
  - inversion HP; subst. constructor; auto.
  - inversion HP; subst. auto.
Qed.

Lemma sub_sorted : forall l l', sub l l' -> StronglySorted Z.le l' -> StronglySorted Z.le l.
Proof.
  induction 1 as [|x l l' Hsub IH|x l l' Hsub IH]; intros HS; [constructor | |].
  - apply StronglySorted_inv in HS. destruct HS as [Hs Hf].
    constructor; [auto |]. eapply sub_forall; eassumption.
  - apply StronglySorted_inv in HS. tauto.
Qed.

Lemma sub_prefix : forall l m, sub l (l ++ m).
Proof.
  induction l; intros m; cbn; [| constructor; auto].
  induction m; constructor; assumption.
Qed.

Ltac solve_sub :=
  repeat first [ apply sub_refl | apply sub_prefix | apply sub_keep
               | apply sub_app_l | apply sub_skip | apply sub_drop ].

Ltac norm :=
  unfold ordered, trail, accepted, unscheduled, context_offsets in *;
  cbn [worker ingress dispatch dispatch_held ingress_held ingress_rest
       eventInput partitionInput highestOffset set_partitionInput
       set_eventInput set_interjectionInput set_maxPending set_contexts
       set_eosProducer set_revocationWaiter set_runStatus set_highestOffset
       set_handled set_completed set_callbacks set_ticks set_interjectionEventInput
       created waiter_Add waiter_Done addEventContext revoke invoke complete tick
       run_callback fst snd
       offsets offered List.concat map app ret_pc] in *;
  repeat (progress (rewrite ?map_app, ?offsets_app, ?concat_app, ?app_nil_r,
                      <- ?app_assoc in *;
                    cbn [offsets List.concat map app] in *)).

(* Steps that leave [highestOffset] alone and only move or discard offsets. *)
Ltac keep Hord :=
  norm; destruct Hord as (Hs & Hok & Hadm);
  split; [split; [| split] | left; lia];
  [ eapply sub_sorted; [| exact Hs]; solve_sub
  | eapply sub_forall; [| exact Hok]; solve_sub
  | eapply sub_forall; [| exact Hadm]; solve_sub ].

Lemma release_queues :
  forall pw pw1,
    release pw = Some pw1 ->
    eventInput pw1 = eventInput pw /\
    partitionInput pw1 = partitionInput pw /\
    highestOffset pw1 = highestOffset pw.
Proof.
  intros pw pw1. unfold release. destruct (maxPending pw); [discriminate |].
  intros H; injection H as <-. auto.
Qed.

Lemma step_ordered :
  forall sys a sys' fut,
    ordered sys (offsets (offered [a]) ++ fut) ->
    step sys a = Some sys' ->
    ordered sys' fut /\
    (highestOffset (worker sys') = highestOffset (worker sys) \/
     exists ec n,
       a = ProducerAssigned (Some n) /\
       dispatch sys = AssignEvent ec /\
       highestOffset (worker sys') = EventContext_Offset ec + 1 /\
       highestOffset (worker sys) <= highestOffset (worker sys')).
Proof.
  intros [pw ipc dpc] a sys' fut Hord.
  destruct a; cbn [step worker ingress dispatch] in *.
  - (* ConsumerAdd *)
    unfold add, chan_send. destruct (isRevoked pw).
    + intros H; injection H as <-. keep Hord.
    + destruct (_ <? _)%nat; [| discriminate].
      intros H; injection H as <-. keep Hord.
  - (* Revoke *)
    intros H; injection H as <-. keep Hord.
  - (* TimerFire *)
    unfold chan_send. destruct (_ <? _)%nat; [| discriminate].
    intros H; injection H as <-. keep Hord.
  - (* PushRecords *)
    destruct ipc; try discriminate.
    destruct (partitionInput pw) as [|records q] eqn:Eq; [discriminate |].
    intros H; injection H as <-.
    change (isRevoked (set_partitionInput q pw)) with (isRevoked pw).
    norm. rewrite Eq in Hord. destruct (isRevoked pw); keep Hord.
  - (* PushInterjection *)
    destruct ipc; try discriminate.
    destruct (interjectionInput pw) as [|ij q] eqn:Eq; [discriminate |].
    intros H; injection H as <-. keep Hord.
  - (* IngressStep *)
    destruct (ingress_step pw ipc) as [[pw' ipc']|] eqn:E; [| discriminate].
    intros H; injection H as <-. cbn [fst snd].
    destruct ipc as [|records|records|[|[r|] rest]|ec rest|ec rest|ec rest|rest
                     |inter ret|inter ret
                     |inter ret|ec ret|ec ret|ec ret];
      cbn [ingress_step] in E; try discriminate.
    + (* AtEntry *)
      destruct (isRevoked pw); injection E as <- <-; keep Hord.
    + (* AtAdd *)
      injection E as <- <-; keep Hord.
    + (* AtRecord [] *)
      injection E as <- <-; keep Hord.
    + (* AtRecord (Some r :: rest) *)
      destruct (Z.geb_spec (Offset r) (highestOffset pw)) as [Hge|Hlt];
        injection E as <- <-; [| keep Hord].
      norm. destruct Hord as (Hs & Hok & Hadm).
      split; [split; [| split] | left; lia]; try assumption.
      rewrite !Forall_app in *. repeat split; try tauto.
      constructor; [cbn; lia | constructor].
    + (* AtRecord (None :: rest) *)
      injection E as <- <-; keep Hord.
    + (* AtAcquire *)
      unfold acquire in E. destruct (_ <? _)%nat; [| discriminate].
      injection E as <- <-; keep Hord.
    + (* AtRegister *)
      injection E as <- <-; keep Hord.
    + (* AtEnqueue *)
      unfold send_eventInput, chan_send in E.
      destruct (_ <? _)%nat; [| discriminate].
      injection E as <- <-; keep Hord.
    + (* AtInterleave *)
      destruct (interjectionInput pw); injection E as <- <-; keep Hord.
    + (* IjEntry *)
      destruct (isRevoked pw); injection E as <- <-.
      * unfold run_callback. destruct ret, (callback inter); keep Hord.
      * destruct ret; keep Hord.
    + (* IjAdd *)
      injection E as <- <-; destruct ret; keep Hord.
    + (* IjNew *)
      injection E as <- <-; destruct ret; keep Hord.
    + (* IjAcquire *)
      unfold acquire in E. destruct (_ <? _)%nat; [| discriminate].
      injection E as <- <-; destruct ret; keep Hord.
    + (* IjRegister *)
      injection E as <- <-; destruct ret; keep Hord.
    + (* IjEnqueue *)
      unfold send_interjectionEventInput, chan_send in E.
      destruct (_ <? _)%nat; [| discriminate].
      injection E as <- <-; destruct ret; keep Hord.
  - (* WorkEvent *)
    destruct dpc; try discriminate.
    destruct (eventInput pw) as [|ec q] eqn:Eq; [discriminate |].
    intros H; injection H as <-. norm. rewrite Eq in Hord. keep Hord.
  - (* WorkInterjection *)
    destruct dpc; try discriminate.
    destruct (interjectionEventInput pw) as [|ec q] eqn:Eq; [discriminate |].
    intros H; injection H as <-. keep Hord.
  - (* WorkAsyncJob *)
    assert (Hjob : forall pw1, processAsyncJob pw job = Some pw1 ->
              eventInput pw1 = eventInput pw /\
              partitionInput pw1 = partitionInput pw /\
              highestOffset pw1 = highestOffset pw).
    { intros pw1. unfold processAsyncJob, release.
      destruct (Finalize job); cbn;
        try (intros H; injection H as <-; auto).
      destruct (maxPending pw); [discriminate |].
      intros H; injection H as <-; auto. }
    destruct dpc; try discriminate;
      (destruct (processAsyncJob pw job) as [pw1|] eqn:E; [| discriminate]);
      intros H; injection H as <-;
      destruct (Hjob pw1 eq_refl) as (E1 & E2 & E3);
      norm; rewrite E1, E2, E3; keep Hord.
  - (* ProducerAssigned *)
    destruct dpc; try discriminate.
    + destruct p as [n|]; cbn [assign producer].
      * intros H; injection H as <-.
        change (EventContext_Offset (assign (Some n) ec)) with (EventContext_Offset ec).
        norm. destruct Hord as (Hs & Hok & Hadm).
        apply StronglySorted_inv in Hs. destruct Hs as [Hs Hle].
        inversion Hok as [|? ? Hx Hok']; subst.
        inversion Hadm as [|? ? Hh Hadm']; subst.
        rewrite (add_one_exact _ Hx).
        split; [split; [| split] | right; exists ec, n; repeat split; lia];
          try assumption.
        eapply Forall_impl; [| eapply sub_forall; [| exact Hle]; solve_sub].
        cbn. intros; lia.
      * destruct (release pw) as [pw1|] eqn:E; [| discriminate].
        intros H; injection H as <-.
        destruct (release_queues _ _ E) as (E1 & E2 & E3).
        norm; rewrite E1, E2, E3; keep Hord.
    + destruct (ec_interjection ec) as [inter|]; [| discriminate].
      destruct p as [n|]; cbn [assign producer].
      * intros H; injection H as <-. keep Hord.
      * destruct (release pw) as [pw1|] eqn:E; [| discriminate].
        intros H; injection H as <-.
        destruct (release_queues _ _ E) as (E1 & E2 & E3).
        unfold run_callback. destruct (callback inter);
          norm; rewrite E1, E2, E3; keep Hord.
  - (* HandlerReturns *)
    destruct dpc; try discriminate.
    + destruct st; try (intros H; injection H as <-; keep Hord).
      destruct (release (complete ec pw)) as [pw1|] eqn:E; [| discriminate].
      intros H; injection H as <-.
      destruct (release_queues _ _ E) as (E1 & E2 & E3).
      norm; rewrite E1, E2, E3; keep Hord.
    + destruct (ec_interjection ec) as [inter|]; [| discriminate].
      destruct st; try (intros H; injection H as <-; keep Hord).
      destruct (release (complete ec pw)) as [pw1|] eqn:E; [| discriminate].
      intros H; injection H as <-.
      destruct (release_queues _ _ E) as (E1 & E2 & E3).
      norm; rewrite E1, E2, E3; keep Hord.
Qed.

Lemma run_ordered :
  forall acts sys sys' fut,
    ordered sys (offsets (offered acts) ++ fut) ->
    run sys acts = Some sys' ->
    ordered sys' fut /\
    highestOffset (worker sys) <= highestOffset (worker sys').
Proof.
  induction acts as [|a acts IH]; intros sys sys' fut Hord; cbn [run].
  - intros H; injection H as <-. split; [exact Hord | lia].
  - destruct (step sys a) as [sys1|] eqn:E; [| discriminate].
    intros Hrun.
    change (a :: acts) with ([a] ++ acts) in Hord.
    rewrite offered_app, offsets_app, <- app_assoc in Hord.
    destruct (step_ordered _ _ _ _ Hord E) as [Hord1 Hh1].
    destruct (IH _ _ _ Hord1 Hrun) as [Hord2 Hh2].
    split; [exact Hord2 |].
    destruct Hh1 as [Heq | (ec & n & _ & _ & _ & Hle)]; lia.
Qed.

Lemma fresh_ordered :
  forall parent eosConfig n pw0 fut,
    newPartitionWorker parent eosConfig n = Some pw0 ->
    StronglySorted Z.le fut ->
    Forall offset_ok fut ->
    ordered (activated pw0) fut.
Proof.
  intros parent eosConfig n pw0 fut. unfold newPartitionWorker.
  destruct (n <? 0); [discriminate |].
  intros H; injection H as <-. intros Hs Hok.
  unfold ordered. cbn. auto.
Qed.

(** C2 (amended).  When the offsets of the records offered to a worker
    come in non-decreasing order and have an [int64] successor, every step
    of every run leaves [highestOffset] where it is or raises it; the only
    step that changes it is the producer assignment in
    [forwardToEventSource], which sets it to [ec.Offset()+1].  And, in any
    state, a record whose offset is below [highestOffset] when the
    scheduling loop inspects it is dropped: [revocationWaiter] goes down by
    one, no context is built, nothing is admitted, no token is taken. *)
Theorem highestOffset_monotone_on_ordered_input :
  (forall parent eosConfig n pw0 acts a sys sys',
     newPartitionWorker parent eosConfig n = Some pw0 ->
     StronglySorted Z.le (offsets (offered (acts ++ [a]))) ->
     Forall offset_ok (offsets (offered (acts ++ [a]))) ->
     run (activated pw0) acts = Some sys ->
     step sys a = Some sys' ->
     highestOffset (worker sys) <= highestOffset (worker sys') /\
     (highestOffset (worker sys') <> highestOffset (worker sys) ->
      exists ec n,
        a = ProducerAssigned (Some n) /\
        dispatch sys = AssignEvent ec /\
        highestOffset (worker sys') = EventContext_Offset ec + 1)) /\
  (forall pw r rest,
     Offset r < highestOffset pw ->
     ingress_step pw (AtRecord (Some r :: rest))
       = Some (waiter_Done pw, AtInterleave rest) /\
     contexts (waiter_Done pw) = contexts pw /\
     eosProducer (waiter_Done pw) = eosProducer pw /\
     eventInput (waiter_Done pw) = eventInput pw /\
     maxPending (waiter_Done pw) = maxPending pw /\
     revocationWaiter (waiter_Done pw) = revocationWaiter pw - 1 /\
     scheduleTxnAndExecution_loop pw (Some r :: rest)
       = (pw' <- interleaveInterjection (waiter_Done pw) ;;
          scheduleTxnAndExecution_loop pw' rest)).
Proof.
  split.
  - intros parent eosConfig n pw0 acts a sys sys' Hnew Hs Hok Hrun Hstep.
    rewrite offered_app, offsets_app in Hs, Hok.
    pose proof (fresh_ordered _ _ _ _ _ Hnew Hs Hok) as H0.
    destruct (run_ordered _ _ _ _ H0 Hrun) as [H1 _].
    rewrite <- (app_nil_r (offsets (offered [a]))) in H1.
    destruct (step_ordered _ _ _ _ H1 Hstep) as [_ [Heq | (ec & k & Ha & Hd & Hw & Hle)]].
    + split; [lia | intros Hne; contradiction].
    + split; [exact Hle | intros _; eauto].
  - intros pw r rest Hlt. cbn [ingress_step scheduleTxnAndExecution_loop].
    destruct (Z.geb_spec (Offset r) (highestOffset pw)) as [Hge|_]; [lia |].
    cbn. repeat split; reflexivity.
Qed.

(** ** Instances *)

(* Provides the state a run ends in as the witness of an existential. *)
Ltac exists_result t :=
  let v := eval vm_compute in t in
  match v with
  | Some ?r => exists r
  end.

Lemma fresh_worker_is_new :
  newPartitionWorker running example_eos 8 = Some fresh_worker.
Proof. reflexivity. Qed.

(** C5, as stated, fails in one direction.  The default handler comes
    back although [TxnErrorHandler] is not nil, when the configuration
    names the default handler as its deserialization handler. *)
Lemma default_returned_with_TxnErrorHandler_set :
  deserializationErrorHandler true (newSource default_handler_config) = Some true /\
  TxnErrorHandler (config (newSource default_handler_config)) <> None /\
  ~ (deserializationErrorHandler true (newSource default_handler_config) = Some true
     <-> TxnErrorHandler (config (newSource default_handler_config)) = None).
Proof.
  split; [reflexivity |]. split; [discriminate |].
  intros [H _]. specialize (H eq_refl). discriminate H.
Qed.

(** With a transaction error handler and no deserialization handler
    configured, nil comes back; with neither, the default does; and with
    the transaction error handler set, the default comes back for the
    configuration that names it. *)
Lemma deserializationErrorHandler_keyed_on_TxnErrorHandler_witness :
  deserializationErrorHandler tt (newSource (example_config 3 2 None (Some tt))) = None /\
  deserializationErrorHandler tt (newSource (example_config 3 2 None None)) = Some tt /\
  deserializationErrorHandler true (newSource default_handler_config) = Some true.
Proof.
  split; [| split].
  - apply (deserializationErrorHandler_keyed_on_TxnErrorHandler tt
             (newSource (example_config 3 2 None (Some tt)))).
    + cbn. discriminate.
    + reflexivity.
  - destruct (deserializationErrorHandler_keyed_on_TxnErrorHandler tt
                (newSource (example_config 3 2 None None))) as (H & _).
    apply H. reflexivity.
  - destruct (deserializationErrorHandler_keyed_on_TxnErrorHandler true
                (newSource default_handler_config)) as (_ & _ & _ & H).
    apply H. right. reflexivity.
Defined.

(** Replication factor 3 and min-in-sync 5: the latter is brought down to 2. *)
Lemma replication_and_minInSync_normalization_witness :
  config_ints_in_range (example_config 3 5 None None) /\
  replicationFactorConfig (newSource (example_config 3 5 None None)) = 3 /\
  minInSyncConfig (newSource (example_config 3 5 None None)) = 2.
Proof.
  assert (H : config_ints_in_range (example_config 3 5 None None)).
  { unfold config_ints_in_range, Int64.in_range, Int64.min_int, Int64.max_int.
    cbn. lia. }
  destruct (replication_and_minInSync_normalization
              (newSource (example_config 3 5 None None)) H)
    as (_ & H2 & _ & H4 & _).
  split; [exact H |]. split.
  - apply H2. cbn. lia.
  - apply H4; cbn; lia.
Defined.

(** Replication factor 3 and min-in-sync 0: 0 comes back. *)
Lemma minInSyncConfig_no_lower_clamp_witness :
  minInSyncConfig (newSource (example_config 3 0 None None)) = 0 /\
  minInSyncConfig (newSource (example_config 3 (-4) None None)) = -4.
Proof.
  split.
  - apply (minInSyncConfig_no_lower_clamp (newSource (example_config 3 0 None None)));
      cbn; lia.
  - apply (minInSyncConfig_no_lower_clamp (newSource (example_config 3 (-4) None None)));
      cbn; lia.
Defined.

(** A worker that holds one token for the context of offset 5, which the
    dispatch loop has taken from [eventInput]; one async job, not yet
    complete, is served during the wait. *)
Lemma handleEvent_forwards_to_event_source_witness :
  exists pw',
    handleEvent (set_maxPending 1 fresh_worker)
      (newEventContext {| Offset := 5 |})
      [{| ctx := newEventContext {| Offset := 4 |}; finalizer := fun _ => Incomplete |}]
      (Some 0%nat) Complete
    = Some (pw', true) /\
    highestOffset pw' = 6 /\
    maxPending pw' = 0%nat /\
    completed pw' = [assign (Some 0%nat) (newEventContext {| Offset := 5 |})].
Proof.
  destruct (handleEvent_forwards_to_event_source
              (set_maxPending 1 fresh_worker)
              (newEventContext {| Offset := 5 |})
              [{| ctx := newEventContext {| Offset := 4 |};
                  finalizer := fun _ => Incomplete |}]
              (Some 0%nat) Complete
              (set_maxPending 1 fresh_worker)
              (assign (Some 0%nat) (newEventContext {| Offset := 5 |}))
              eq_refl (Nat.lt_0_succ 0))
    as (pw' & Hrun & Hh & _ & _ & Hc & _).
  exists pw'. destruct (Hc eq_refl) as [Hcompleted Htokens].
  repeat split; assumption.
Defined.

(** C3, as stated, fails.  A batch of two records passes the entry check
    of [scheduleTxnAndExecution]; then the worker is revoked; the loop,
    which does not look at the run status, goes on to build the context of
    offset 5, take a token for it and hand it to the pool. *)
Lemma context_created_after_halt :
  exists sys sys',
    newPartitionWorker running example_eos 8 = Some fresh_worker /\
    run (activated fresh_worker)
        (deliver_steps [record_at 5; record_at 6] ++ [Revoke]) = Some sys /\
    isRevoked (worker sys) = true /\
    contexts (worker sys) = [] /\
    maxPending (worker sys) = 0%nat /\
    run sys accept_steps = Some sys' /\
    contexts (worker sys') = [newEventContext {| Offset := 5 |}] /\
    eosProducer (worker sys') = [newEventContext {| Offset := 5 |}] /\
    maxPending (worker sys') = 1%nat.
Proof.
  exists_result (run (activated fresh_worker)
                   (deliver_steps [record_at 5; record_at 6] ++ [Revoke])).
  exists_result (run (activated fresh_worker)
                   (deliver_steps [record_at 5; record_at 6] ++ [Revoke]
                      ++ accept_steps)).
  repeat split; vm_compute; reflexivity.
Qed.

(** The halt may also land right after the entry test of
    [scheduleTxnAndExecution]: the call still raises [revocationWaiter] by
    the length of the batch and schedules both records. *)
Lemma batch_scheduled_after_halt :
  exists sys sys',
    run (activated fresh_worker)
        [ConsumerAdd [record_at 5; record_at 6]; PushRecords; IngressStep; Revoke]
      = Some sys /\
    isRevoked (worker sys) = true /\
    ingress sys = AtAdd [record_at 5; record_at 6] /\
    revocationWaiter (worker sys) = 0 /\
    contexts (worker sys) = [] /\
    run sys (ingress_steps 12) = Some sys' /\
    ingress sys' = InSelect /\
    revocationWaiter (worker sys') = 2 /\
    context_offsets (contexts (worker sys')) = [5; 6] /\
    context_offsets (eosProducer (worker sys')) = [5; 6] /\
    maxPending (worker sys') = 2%nat.
Proof.
  exists_result (run (activated fresh_worker)
                   [ConsumerAdd [record_at 5; record_at 6]; PushRecords;
                    IngressStep; Revoke]).
  exists_result (run (activated fresh_worker)
                   ([ConsumerAdd [record_at 5; record_at 6]; PushRecords;
                     IngressStep; Revoke] ++ ingress_steps 12)).
  repeat split; vm_compute; reflexivity.
Qed.

(** The same race in [scheduleInterjection]: the interjection passes the
    test of [isRevoked]; then the worker is revoked; the call goes on to
    raise [revocationWaiter], build the context, take a token and hand the
    context to the pool and to the dispatch loop.  The callback is not
    run. *)
Lemma interjection_scheduled_after_halt :
  exists sys sys',
    run (activated fresh_worker)
        [TimerFire example_interjection; PushInterjection; IngressStep; Revoke]
      = Some sys /\
    isRevoked (worker sys) = true /\
    ingress sys = IjAdd example_interjection None /\
    revocationWaiter (worker sys) = 0 /\
    contexts (worker sys) = [] /\
    run sys (ingress_steps 5) = Some sys' /\
    ingress sys' = InSelect /\
    revocationWaiter (worker sys') = 1 /\
    contexts (worker sys') = [newInterjectionContext example_interjection] /\
    eosProducer (worker sys') = [newInterjectionContext example_interjection] /\
    interjectionEventInput (worker sys')
      = [newInterjectionContext example_interjection] /\
    maxPending (worker sys') = 1%nat /\
    callbacks (worker sys') = [].
Proof.
  exists_result (run (activated fresh_worker)
                   [TimerFire example_interjection; PushInterjection;
                    IngressStep; Revoke]).
  exists_result (run (activated fresh_worker)
                   ([TimerFire example_interjection; PushInterjection;
                     IngressStep; Revoke] ++ ingress_steps 5)).
  repeat split; vm_compute; reflexivity.
Qed.

Lemma no_scheduling_once_revoked_witness :
  isRevoked (revoke fresh_worker) = true /\
  add (revoke fresh_worker) duplicate_batch = Some (revoke fresh_worker) /\
  scheduleTxnAndExecution (revoke fresh_worker) duplicate_batch
    = Some (revoke fresh_worker).
Proof.
  assert (H : isRevoked (revoke fresh_worker) = true) by reflexivity.
  destruct (no_scheduling_once_revoked (revoke fresh_worker) H) as (Hadd & Hsched & _).
  split; [exact H |]. split; [apply Hadd | apply Hsched].
Defined.

(** C1, as stated, fails.  [scheduleTxnAndExecution] reads
    [highestOffset], which only the dispatch loop writes, and that loop
    cannot write before the pool has assigned a producer.  When the
    scheduling loop gets through the batch first, all six records pass the
    inspection: six contexts are built and admitted, and
    [revocationWaiter] rises by 6. *)
Lemma duplicates_scheduled_ahead_of_dispatch :
  exists pw1 sys,
    newPartitionWorker running example_eos 8 = Some fresh_worker /\
    scheduleTxnAndExecution fresh_worker duplicate_batch = Some pw1 /\
    context_offsets (contexts pw1) = [5; 6; 7; 5; 6; 7] /\
    context_offsets (eosProducer pw1) = [5; 6; 7; 5; 6; 7] /\
    revocationWaiter pw1 = 6 /\
    highestOffset pw1 = -1 /\
    run (activated fresh_worker) (ahead_schedule 0%nat) = Some sys /\
    context_offsets (contexts (worker sys)) = [5; 6; 7; 5; 6; 7] /\
    context_offsets (eosProducer (worker sys)) = [5; 6; 7; 5; 6; 7] /\
    revocationWaiter (worker sys) = 6 /\
    highestOffset (worker sys) = 8.
Proof.
  exists_result (scheduleTxnAndExecution fresh_worker duplicate_batch).
  exists_result (run (activated fresh_worker) (ahead_schedule 0%nat)).
  repeat split; vm_compute; reflexivity.
Qed.

Lemma duplicate_suppression_in_lockstep_witness :
  exists sys,
    run (activated fresh_worker) (lockstep_schedule 0%nat 1%nat 2%nat Complete Incomplete Fatal)
      = Some sys /\
    context_offsets (contexts (worker sys)) = [5; 6; 7] /\
    context_offsets (eosProducer (worker sys)) = [5; 6; 7] /\
    highestOffset (worker sys) = 8 /\
    revocationWaiter (worker sys) = revocationWaiter fresh_worker + 3 /\
    eventInput (worker sys) = [] /\
    ingress sys = InSelect /\
    dispatch sys = InWork.
Proof.
  apply (duplicate_suppression_in_lockstep running example_eos 8 fresh_worker
           0%nat 1%nat 2%nat Complete Incomplete Fatal).
  - reflexivity.
  - lia.
  - reflexivity.
Defined.

(** C2, as stated, fails.  The batch [6, 5]: both records pass the
    inspection while [highestOffset] is still -1; the dispatch loop then
    writes 7 for the first context and 6 for the second. *)
Lemma highestOffset_lowered_by_unordered_batch :
  exists sys sys',
    newPartitionWorker running example_eos 8 = Some fresh_worker /\
    run (activated fresh_worker)
        (deliver_steps [record_at 6; record_at 5]
           ++ accept_steps ++ accept_steps ++ [IngressStep]
           ++ handle_steps 0%nat Complete ++ [WorkEvent]) = Some sys /\
    dispatch sys = AssignEvent (newEventContext {| Offset := 5 |}) /\
    highestOffset (worker sys) = 7 /\
    step sys (ProducerAssigned (Some 0%nat)) = Some sys' /\
    highestOffset (worker sys') = 6.
Proof.
  exists_result (run (activated fresh_worker)
                   (deliver_steps [record_at 6; record_at 5]
                      ++ accept_steps ++ accept_steps ++ [IngressStep]
                      ++ handle_steps 0%nat Complete ++ [WorkEvent])).
  exists_result (run (activated fresh_worker)
                   (deliver_steps [record_at 6; record_at 5]
                      ++ accept_steps ++ accept_steps ++ [IngressStep]
                      ++ handle_steps 0%nat Complete
                      ++ [WorkEvent; ProducerAssigned (Some 0%nat)])).
  repeat split; vm_compute; reflexivity.
Qed.

(** The batch [5, 6, 7], scheduled ahead of the dispatch loop: the write
    for the second context raises [highestOffset] from 6 to 7. *)
Lemma highestOffset_monotone_on_ordered_input_witness :
  exists sys sys',
    run (activated fresh_worker)
        (deliver_steps [record_at 5; record_at 6; record_at 7]
           ++ accept_steps ++ accept_steps ++ accept_steps ++ [IngressStep]
           ++ handle_steps 0%nat Complete ++ [WorkEvent]) = Some sys /\
    step sys (ProducerAssigned (Some 0%nat)) = Some sys' /\
    highestOffset (worker sys) = 6 /\
    highestOffset (worker sys') = 7 /\
    highestOffset (worker sys) <= highestOffset (worker sys').
Proof.
  exists_result (run (activated fresh_worker)
                   (deliver_steps [record_at 5; record_at 6; record_at 7]
                      ++ accept_steps ++ accept_steps ++ accept_steps ++ [IngressStep]
                      ++ handle_steps 0%nat Complete ++ [WorkEvent])).
  exists_result (run (activated fresh_worker)
                   (deliver_steps [record_at 5; record_at 6; record_at 7]
                      ++ accept_steps ++ accept_steps ++ accept_steps ++ [IngressStep]
                      ++ handle_steps 0%nat Complete
                      ++ [WorkEvent; ProducerAssigned (Some 0%nat)])).
  split; [vm_compute; reflexivity |].
  split; [vm_compute; reflexivity |].
  split; [reflexivity |]. split; [reflexivity |].
  eapply (proj1 highestOffset_monotone_on_ordered_input running example_eos 8
            fresh_worker
            (deliver_steps [record_at 5; record_at 6; record_at 7]
               ++ accept_steps ++ accept_steps ++ accept_steps ++ [IngressStep]
               ++ handle_steps 0%nat Complete ++ [WorkEvent])
            (ProducerAssigned (Some 0%nat))).
  - reflexivity.
  - cbn. repeat (constructor; try lia).
  - cbn. unfold offset_ok, Int64.min_int, Int64.max_int.
    repeat (constructor; try lia).
  - vm_compute. reflexivity.
  - vm_compute. reflexivity.
Defined.

(** * Further properties *)

(** ** source.go *)


Section MoreSourceProperties.

Context {Cluster DeserializationErrorHandlerFunc TxnErrorHandlerFunc : Type}.
Variable DefaultDeserializationErrorHandler : DeserializationErrorHandlerFunc.
Variable DefaultTxnErrorHandler : TxnErrorHandlerFunc.

Local Abbreviation Source := (Source Cluster DeserializationErrorHandlerFunc TxnErrorHandlerFunc).

Lemma minInSync_bounds :
  forall s : Source,
    config_ints_in_range (config s) ->
    1 <= replicationFactorConfig s /\
    minInSyncConfig s <= replicationFactorConfig s /\
    (1 < replicationFactorConfig s ->
     minInSyncConfig s < replicationFactorConfig s) /\
    Int64.in_range (replicationFactorConfig s) /\
    Int64.in_range (minInSyncConfig s).
Proof.
  intros s (_ & Hrf & Hmin).
  unfold minInSyncConfig, replicationFactorConfig, Int64.sub.
  unfold Int64.in_range, Int64.min_int, Int64.max_int in *.
  destruct (Z.leb_spec (ReplicationFactor (config s)) 0).
  - cbn. lia.
  - destruct (Z.leb_spec (ReplicationFactor (config s)) 1); [lia |].
    destruct (Z.geb_spec (MinInSync (config s)) (ReplicationFactor (config s)));
      [| lia].
    rewrite wrap_in_range
      by (unfold Int64.in_range, Int64.min_int, Int64.max_int; lia).
    lia.
Qed.

(** X1.  For a configuration of Go ints the normalized replication factor
    is at least 1, the normalized min-in-sync never exceeds it, and above
    a factor of 1 it stays strictly below; both are Go ints again. *)
Theorem minInSync_within_replication :
  forall s : Source,
    config_ints_in_range (config s) ->
    1 <= replicationFactorConfig s /\
    minInSyncConfig s <= replicationFactorConfig s /\
    (1 < replicationFactorConfig s ->
     minInSyncConfig s < replicationFactorConfig s) /\
    Int64.in_range (replicationFactorConfig s) /\
    Int64.in_range (minInSyncConfig s).
Proof. exact minInSync_bounds. Qed.

(** X2.  Normalizing is idempotent: a configuration that carries the
    normalized replication factor and min-in-sync normalizes to the same
    two values. *)
Theorem normalization_idempotent :
  forall s : Source,
    config_ints_in_range (config s) ->
    replicationFactorConfig (normalized s) = replicationFactorConfig s /\
    minInSyncConfig (normalized s) = minInSyncConfig s.
Proof.
  intros s Hr.
  destruct (minInSync_bounds s Hr) as (H1 & H2 & H3 & H4 & H5).
  assert (E : replicationFactorConfig (normalized s) = replicationFactorConfig s).
  { unfold replicationFactorConfig at 1. cbn.
    destruct (Z.leb_spec (replicationFactorConfig s) 0); [lia | reflexivity]. }
  split; [exact E |].
  unfold minInSyncConfig at 1. cbv zeta. rewrite E. cbn [normalized config MinInSync ReplicationFactor].
  destruct (Z.leb_spec (replicationFactorConfig s) 1) as [Hle|Hgt].
  - unfold minInSyncConfig. destruct (Z.leb_spec (replicationFactorConfig s) 1); [reflexivity | lia].
  - destruct (Z.geb_spec (minInSyncConfig s) (replicationFactorConfig s)); [| reflexivity].
    specialize (H3 Hgt). lia.
Qed.

(** X3.  [eosErrorHandler] never returns nil: it is the configured
    transaction error handler when there is one and the default otherwise,
    in which case [deserializationErrorHandler] is the default too. *)
Theorem eosErrorHandler_never_nil :
  forall s : Source,
    eosErrorHandler DefaultTxnErrorHandler s <> None /\
    (forall h, TxnErrorHandler (config s) = Some h ->
               eosErrorHandler DefaultTxnErrorHandler s = Some h) /\
    (TxnErrorHandler (config s) = None ->
     eosErrorHandler DefaultTxnErrorHandler s = Some DefaultTxnErrorHandler /\
     deserializationErrorHandler DefaultDeserializationErrorHandler s
       = Some DefaultDeserializationErrorHandler).
Proof.
  intros s. unfold eosErrorHandler, deserializationErrorHandler.
  destruct (TxnErrorHandler (config s)); repeat split; intros; congruence.
Qed.

(** X4.  [deserializationErrorHandler] returns nil exactly when a
    transaction error handler is configured and no deserialization error
    handler is. *)
Theorem deserializationErrorHandler_nil_iff :
  forall s : Source,
    deserializationErrorHandler DefaultDeserializationErrorHandler s = None <->
    (TxnErrorHandler (config s) <> None /\
     DeserializationErrorHandler (config s) = None).
Proof.
  intros s. unfold deserializationErrorHandler.
  destruct (TxnErrorHandler (config s)); split.
  - intros H. split; [discriminate | exact H].
  - intros [_ H]. exact H.
  - discriminate.
  - intros [H _]. contradiction.
Qed.

Lemma append_inj_l : forall p a b : string, (p ++ a = p ++ b)%string -> a = b.
Proof.
  induction p as [|c p IH]; intros a b H; cbn in H; [exact H |].
  injection H as H. apply IH. exact H.
Qed.

(** X5.  Sources with the same commit-log topic have the same group id:
    distinct consumer groups never share a commit log. *)
Theorem CommitLogTopicName_injective :
  forall s1 s2 : Source,
    CommitLogTopicNameForGroupId s1 = CommitLogTopicNameForGroupId s2 ->
    GroupId (config s1) = GroupId (config s2).
Proof.
  intros s1 s2. unfold CommitLogTopicNameForGroupId. apply append_inj_l.
Qed.

(** X6.  The state-store topic name is never empty, and a generated one
    (no [StateStoreTopic] configured) is never the commit-log topic of any
    source. *)
Theorem StateStoreTopicName_nonempty_and_apart :
  forall s : Source,
    StateStoreTopicName s <> EmptyString /\
    (StateStoreTopic (config s) = EmptyString ->
     forall s' : Source,
       StateStoreTopicName s <> CommitLogTopicNameForGroupId s').
Proof.
  intros s. unfold StateStoreTopicName, CommitLogTopicNameForGroupId.
  destruct (StateStoreTopic (config s)) as [|c rest] eqn:E.
  - split; [cbn; discriminate |]. intros _ s'. cbn. discriminate.
  - split; [cbn; discriminate |]. discriminate.
Qed.

Lemma append_assoc : forall a b c : string, ((a ++ b) ++ c = a ++ (b ++ c))%string.
Proof.
  induction a as [|x a IH]; intros b c; cbn; [reflexivity |].
  rewrite IH. reflexivity.
Qed.

(** X7.  The generated state-store topic name does not tell topic and
    group id apart: topic [t_u] with group [g] and topic [t] with group
    [u_g] get the same name. *)
Theorem generated_StateStoreTopicName_collides :
  forall (s : Source) (t u g : string),
    StateStoreTopic (config s) = EmptyString ->
    StateStoreTopicName (renamed (t ++ "_" ++ u) g s)
      = StateStoreTopicName (renamed t (u ++ "_" ++ g) s).
Proof.
  intros s t u g E. unfold StateStoreTopicName. cbn [renamed config StateStoreTopic Topic GroupId].
  rewrite E. cbn [String.length Z.of_nat Z.ltb Z.compare].
  f_equal. rewrite !append_assoc. reflexivity.
Qed.

Theorem stateCluster_nil_iff :
  forall s : Source,
    stateCluster s = None <->
    (StateCluster (config s) = None /\ SourceCluster (config s) = None).
Proof.
  intros s. unfold stateCluster.
  destruct (StateCluster (config s)); split.
  - discriminate.
  - intros [H _]. discriminate.
  - intros H. split; [reflexivity | exact H].
  - intros [_ H]. exact H.
Qed.

End MoreSourceProperties.

(** ** Scheduling *)


Ltac case_if :=
  match goal with
  | |- context [if ?c then _ else _] => destruct c eqn:?
  end.

Lemma scheduled_refl : forall pw, scheduled 0 pw pw [].
Proof.
  intros pw. unfold scheduled. cbn. rewrite !app_nil_r, Nat.add_0_r, !Z.add_0_r.
  repeat split.
Qed.

Lemma scheduled_trans :
  forall d1 d2 a b c l1 l2,
    scheduled d1 a b l1 -> scheduled d2 b c l2 -> scheduled (d1 + d2) a c (l1 ++ l2).
Proof.
  unfold scheduled. intros d1 d2 a b c l1 l2
    (A1 & A2 & A3 & A4 & A5 & A6 & A7 & A8 & A9 & A10 & A11 & A12)
    (B1 & B2 & B3 & B4 & B5 & B6 & B7 & B8 & B9 & B10 & B11 & B12).
  rewrite !filter_app, !length_app, Nat2Z.inj_add.
  rewrite B1, B2, B3, B4, B5, B6, B7, B8, B9, B10, B11, B12.
  rewrite A1, A2, A3, A4, A5, A6, A7, A8, A9, A10, A11, A12.
  rewrite <- !app_assoc. repeat split; lia.
Qed.

Lemma waiter_Add_scheduled : forall n pw, scheduled n pw (waiter_Add n pw) [].
Proof.
  intros n pw. unfold scheduled. cbn. rewrite !app_nil_r, Nat.add_0_r.
  repeat split. lia.
Qed.

Lemma scheduleInterjection_scheduled :
  forall pw inter pw',
    isRevoked pw = false ->
    scheduleInterjection pw inter = Some pw' ->
    scheduled 0 pw pw' [newInterjectionContext inter].
Proof.
  intros pw inter pw' Hrun. unfold scheduleInterjection. rewrite Hrun.
  unfold acquire, send_interjectionEventInput, chan_send.
  case_if; [| discriminate]. cbn.
  case_if; [| discriminate].
  intros H; injection H as <-. unfold scheduled. cbn.
  rewrite !app_nil_r. repeat split; lia.
Qed.

Lemma interleaveInterjection_scheduled :
  forall pw pw',
    isRevoked pw = false ->
    interleaveInterjection pw = Some pw' ->
    exists new,
      scheduled 0 pw pw' new /\
      filter holds_record new = [] /\
      interjectionInput pw' = tl (interjectionInput pw) /\
      (interjectionInput pw = [] -> pw' = pw).
Proof.
  intros pw pw' Hrun. unfold interleaveInterjection.
  destruct (interjectionInput pw) as [|ij q] eqn:Eq.
  - intros H; injection H as <-. exists [].
    rewrite Eq. auto using scheduled_refl.
  - intros H. pose proof H as H'.
    apply scheduleInterjection_scheduled in H; [| exact Hrun].
    exists [newInterjectionContext ij]. cbn [tl].
    split; [exact H |]. split; [reflexivity |]. split; [| discriminate].
    revert H'. unfold scheduleInterjection.
    change (isRevoked (set_interjectionInput q pw)) with (isRevoked pw).
    rewrite Hrun. unfold acquire, send_interjectionEventInput, chan_send.
    case_if; [| discriminate]. cbn. case_if; [| discriminate].
    intros E; injection E as <-. reflexivity.
Qed.

Lemma inspect_scheduled :
  forall pw r pw1 pw2,
    acquire (created (newEventContext r) pw) = Some pw1 ->
    send_eventInput (newEventContext r) (addEventContext (newEventContext r) pw1)
      = Some pw2 ->
    scheduled (-1) pw pw2 [newEventContext r] /\
    interjectionInput pw2 = interjectionInput pw.
Proof.
  intros pw r pw1 pw2. unfold acquire, send_eventInput, chan_send.
  case_if; [| discriminate]. intros H; injection H as <-. cbn.
  case_if; [| discriminate]. intros H; injection H as <-.
  unfold scheduled. cbn. rewrite !app_nil_r. repeat split; lia.
Qed.

Lemma scheduled_running :
  forall d pw pw' new, scheduled d pw pw' new -> isRevoked pw' = isRevoked pw.
Proof.
  unfold scheduled, isRevoked. intros d pw pw' new H.
  decompose [and] H. congruence.
Qed.

Lemma scheduled_offset :
  forall d pw pw' new, scheduled d pw pw' new -> highestOffset pw' = highestOffset pw.
Proof. unfold scheduled. intros d pw pw' new H. decompose [and] H. assumption. Qed.

Lemma scheduleTxnAndExecution_loop_scheduled :
  forall records pw pw' h,
    isRevoked pw = false ->
    highestOffset pw = h ->
    scheduleTxnAndExecution_loop pw records = Some pw' ->
    exists new,
      scheduled (- Z.of_nat (List.length records)) pw pw' new /\
      filter holds_record new = record_contexts (filter (inspect_ok h) records).
Proof.
  induction records as [|record rest IH]; intros pw pw' h Hrun Hh;
    cbn [scheduleTxnAndExecution_loop].
  - intros H; injection H as <-. exists []. split; [apply scheduled_refl | reflexivity].
  - destruct (match record with
              | Some r => _
              | None => _
              end) as [pw2|] eqn:Hrec; [| discriminate].
    destruct (interleaveInterjection pw2) as [pw3|] eqn:Hint; [| discriminate].
    intros Hloop.
    assert (Hstep : exists l,
               scheduled (-1) pw pw2 l /\
               filter holds_record l = record_contexts (filter (inspect_ok h) [record])).
    { destruct record as [r|]; cbn [filter inspect_ok].
      - rewrite Hh in Hrec. destruct (Offset r >=? h).
        + destruct (acquire _) as [pw1|] eqn:Hacq; [| discriminate].
          exists [newEventContext r]. split; [| reflexivity].
          eapply inspect_scheduled; eassumption.
        + injection Hrec as <-. exists []. split; [| reflexivity].
          apply waiter_Add_scheduled.
      - injection Hrec as <-. exists []. split; [| reflexivity].
        apply waiter_Add_scheduled. }
    destruct Hstep as (l1 & S1 & F1).
    assert (Hrun2 : isRevoked pw2 = false)
      by (rewrite (scheduled_running _ _ _ _ S1); exact Hrun).
    destruct (interleaveInterjection_scheduled _ _ Hrun2 Hint) as (l2 & S2 & F2 & _).
    assert (Hrun3 : isRevoked pw3 = false)
      by (rewrite (scheduled_running _ _ _ _ S2); exact Hrun2).
    assert (Hh3 : highestOffset pw3 = h).
    { rewrite (scheduled_offset _ _ _ _ S2), (scheduled_offset _ _ _ _ S1). exact Hh. }
    destruct (IH _ _ _ Hrun3 Hh3 Hloop) as (l3 & S3 & F3).
    exists (l1 ++ l2 ++ l3). split.
    + pose proof (scheduled_trans _ _ _ _ _ _ _ S1
                    (scheduled_trans _ _ _ _ _ _ _ S2 S3)) as S.
      replace (- Z.of_nat (List.length (record :: rest)))
        with (-1 + (0 + - Z.of_nat (List.length rest)))
        by (cbn [List.length]; lia).
      exact S.
    + rewrite !filter_app, F1, F2, F3. cbn [filter app].
      destruct (inspect_ok h record), record; reflexivity.
Qed.

Lemma scheduleTxnAndExecution_scheduled :
  forall pw records pw',
    isRevoked pw = false ->
    scheduleTxnAndExecution pw records = Some pw' ->
    exists new,
      scheduled 0 pw pw' new /\
      filter holds_record new
        = record_contexts (filter (inspect_ok (highestOffset pw)) records).
Proof.
  intros pw records pw' Hrun. unfold scheduleTxnAndExecution. rewrite Hrun.
  intros Hloop.
  apply scheduleTxnAndExecution_loop_scheduled with (h := highestOffset pw) in Hloop;
    [| exact Hrun | reflexivity].
  destruct Hloop as (new & S & F). exists new. split; [| exact F].
  pose proof (scheduled_trans _ _ _ _ _ _ _
                (waiter_Add_scheduled (Z.of_nat (List.length records)) pw) S) as S'.
  replace (Z.of_nat (List.length records) + - Z.of_nat (List.length records))
    with 0 in S' by lia.
  exact S'.
Qed.

(** X11.  An undisturbed call of [scheduleTxnAndExecution] on a running
    worker that returns has scheduled a list [new] of contexts: they are
    the contexts constructed, in this order they were handed to the pool
    and put on [eventInput] (records) or [interjectionEventInput]
    (interjections), each holds one token, and [revocationWaiter] has risen
    by their number.  The record contexts among them are those of the
    records, nil ones apart, whose offset is not below [highestOffset] as
    it was at the call, repeated or out-of-order offsets included.
    [highestOffset] and the completions are untouched. *)
Theorem scheduleTxnAndExecution_accounting :
  forall pw records pw',
    isRevoked pw = false ->
    scheduleTxnAndExecution pw records = Some pw' ->
    exists new,
      scheduled 0 pw pw' new /\
      filter holds_record new
        = record_contexts (filter (inspect_ok (highestOffset pw)) records).
Proof. exact scheduleTxnAndExecution_scheduled. Qed.

Lemma waiter_Add_0 : forall pw, waiter_Add 0 pw = pw.
Proof.
  intros pw. destruct pw. unfold waiter_Add, set_revocationWaiter. cbn.
  rewrite Z.add_0_r. reflexivity.
Qed.

Lemma waiter_Add_Add :
  forall n m pw, waiter_Add n (waiter_Add m pw) = waiter_Add (m + n) pw.
Proof.
  intros n m pw. unfold waiter_Add, set_revocationWaiter. cbn.
  rewrite Z.add_assoc. reflexivity.
Qed.

Lemma stale_loop :
  forall records pw,
    Forall (stale pw) records ->
    interjectionInput pw = [] ->
    scheduleTxnAndExecution_loop pw records
      = Some (waiter_Add (- Z.of_nat (List.length records)) pw).
Proof.
  induction records as [|record rest IH]; intros pw Hst Hij;
    cbn [scheduleTxnAndExecution_loop List.length].
  - rewrite waiter_Add_0. reflexivity.
  - inversion Hst as [|? ? Hhd Htl]; subst.
    assert (Htail :
              (pw2 <- interleaveInterjection (waiter_Done pw) ;;
               scheduleTxnAndExecution_loop pw2 rest)
              = Some (waiter_Add (- Z.of_nat (S (List.length rest))) pw)).
    { unfold interleaveInterjection.
      change (interjectionInput (waiter_Done pw)) with (interjectionInput pw).
      rewrite Hij. rewrite IH; [| exact Htl | exact Hij].
      unfold waiter_Done. rewrite waiter_Add_Add. f_equal. f_equal. lia. }
    destruct record as [r|]; [| exact Htail]. cbn in Hhd.
    destruct (Z.geb_spec (Offset r) (highestOffset pw)); [lia | exact Htail].
Qed.

(** X12.  A batch of nil records and of records below [highestOffset],
    the empty batch included, leaves the worker exactly as it was when no
    interjection is pending: the advance on [revocationWaiter] is given
    back in full. *)
Theorem scheduleTxnAndExecution_stale_batch :
  forall pw records,
    Forall (stale pw) records ->
    interjectionInput pw = [] ->
    scheduleTxnAndExecution pw records = Some pw.
Proof.
  intros pw records Hst Hij. unfold scheduleTxnAndExecution.
  destruct (isRevoked pw); [reflexivity |].
  rewrite stale_loop.
  - rewrite waiter_Add_Add, Z.add_opp_diag_r, waiter_Add_0. reflexivity.
  - exact Hst.
  - exact Hij.
Qed.

Lemma passes_record_contexts :
  forall pw records,
    Forall (passes pw) records ->
    List.length (record_contexts records) = List.length records /\
    filter holds_record (record_contexts records) = record_contexts records.
Proof.
  induction 1 as [|record rest Hhd Htl [IH1 IH2]]; [split; reflexivity |].
  destruct record as [r|]; [| contradiction]. cbn. rewrite IH1, IH2. auto.
Qed.

Lemma acquire_some_iff :
  forall pw,
    (maxPending pw < maxPending_cap pw)%nat <-> acquire pw <> None.
Proof.
  intros pw. unfold acquire.
  destruct (Nat.ltb_spec (maxPending pw) (maxPending_cap pw)); split;
    intros; try discriminate; try lia; congruence.
Qed.

Lemma send_eventInput_some_iff :
  forall ec pw,
    (List.length (eventInput pw) < eventInput_cap pw)%nat <->
    send_eventInput ec pw <> None.
Proof.
  intros ec pw. unfold send_eventInput, chan_send.
  destruct (Nat.ltb_spec (List.length (eventInput pw)) (eventInput_cap pw)); split;
    intros; try discriminate; try lia; congruence.
Qed.

Lemma passing_loop :
  forall records pw,
    Forall (passes pw) records ->
    interjectionInput pw = [] ->
    (maxPending pw + List.length records <= maxPending_cap pw)%nat ->
    (List.length (eventInput pw) + List.length records <= eventInput_cap pw)%nat ->
    exists pw',
      scheduleTxnAndExecution_loop pw records = Some pw' /\
      scheduled (- Z.of_nat (List.length records)) pw pw' (record_contexts records) /\
      interjectionInput pw' = [].
Proof.
  induction records as [|record rest IH]; intros pw Hp Hij Htok Hroom;
    cbn [scheduleTxnAndExecution_loop List.length record_contexts] in *.
  - exists pw. auto using scheduled_refl.
  - inversion Hp as [|? ? Hhd Htl]; subst.
    destruct record as [r|]; [| contradiction]. cbn in Hhd.
    destruct (Z.geb_spec (Offset r) (highestOffset pw)) as [_|]; [| lia].
    cbv zeta.
    destruct (acquire (created (newEventContext r) pw)) as [pw1|] eqn:Hacq.
    2:{ exfalso. revert Hacq. apply acquire_some_iff. cbn. lia. }
    destruct (send_eventInput (newEventContext r)
                (addEventContext (newEventContext r) pw1)) as [pw2|] eqn:Hsend.
    2:{ exfalso. revert Hsend. apply send_eventInput_some_iff.
        unfold acquire in Hacq. destruct (_ <? _)%nat; [| discriminate].
        injection Hacq as <-. cbn. lia. }
    destruct (inspect_scheduled _ _ _ _ Hacq Hsend) as [S1 Hij2].
    unfold interleaveInterjection. rewrite Hij2, Hij.
    pose proof S1 as (_ & _ & E3 & _ & _ & E6 & E7 & _ & _ & _ & E11 & E12).
    destruct (IH pw2) as (pw' & Hloop & S2 & Hij').
    + eapply Forall_impl; [| exact Htl]. intros [x|]; cbn; [rewrite E7; auto | auto].
    + congruence.
    + rewrite E6, E11. cbn. lia.
    + rewrite E3, E12, length_app. cbn. lia.
    + exists pw'. split; [exact Hloop |]. split; [| exact Hij'].
      pose proof (scheduled_trans _ _ _ _ _ _ _ S1 S2) as S12.
      replace (- Z.of_nat (S (List.length rest)))
        with (-1 + - Z.of_nat (List.length rest)) by lia.
      exact S12.
Qed.

Lemma passing_batch_scheduled :
  forall pw records,
    isRevoked pw = false ->
    Forall (passes pw) records ->
    interjectionInput pw = [] ->
    (maxPending pw + List.length records <= maxPending_cap pw)%nat ->
    (List.length (eventInput pw) + List.length records <= eventInput_cap pw)%nat ->
    exists pw',
      scheduleTxnAndExecution pw records = Some pw' /\
      contexts pw' = contexts pw ++ record_contexts records /\
      eosProducer pw' = eosProducer pw ++ record_contexts records /\
      eventInput pw' = eventInput pw ++ record_contexts records /\
      revocationWaiter pw' = revocationWaiter pw + Z.of_nat (List.length records) /\
      maxPending pw' = (maxPending pw + List.length records)%nat /\
      highestOffset pw' = highestOffset pw.
Proof.
  intros pw records Hrun Hp Hij Htok Hroom.
  unfold scheduleTxnAndExecution. rewrite Hrun.
  destruct (passing_loop records (waiter_Add (Z.of_nat (List.length records)) pw))
    as (pw' & Hloop & S & _); try assumption.
  destruct (passes_record_contexts _ _ Hp) as [Hlen Hfil].
  exists pw'. split; [exact Hloop |].
  destruct S as (E1 & E2 & E3 & _ & E5 & E6 & E7 & _).
  rewrite Hfil in E3. rewrite Hlen in E5, E6. cbn in *.
  repeat split; try assumption. lia.
Qed.

(** X13.  On a running worker with no interjection pending, a batch whose
    records all pass the offset test and fit into [maxPending] and
    [eventInput] is scheduled whole: one context per record, in the order
    of the batch, in the pool and on [eventInput], one token each, and
    [revocationWaiter] up by the length of the batch. *)
Theorem scheduleTxnAndExecution_passing_batch :
  forall pw records,
    isRevoked pw = false ->
    Forall (passes pw) records ->
    interjectionInput pw = [] ->
    (maxPending pw + List.length records <= maxPending_cap pw)%nat ->
    (List.length (eventInput pw) + List.length records <= eventInput_cap pw)%nat ->
    exists pw',
      scheduleTxnAndExecution pw records = Some pw' /\
      contexts pw' = contexts pw ++ record_contexts records /\
      eosProducer pw' = eosProducer pw ++ record_contexts records /\
      eventInput pw' = eventInput pw ++ record_contexts records /\
      revocationWaiter pw' = revocationWaiter pw + Z.of_nat (List.length records) /\
      maxPending pw' = (maxPending pw + List.length records)%nat /\
      highestOffset pw' = highestOffset pw.
Proof. exact passing_batch_scheduled. Qed.

Lemma blocked_loop :
  forall records pw,
    Forall (passes pw) records ->
    interjectionInput pw = [] ->
    (maxPending_cap pw - maxPending pw < List.length records)%nat ->
    scheduleTxnAndExecution_loop pw records = None.
Proof.
  induction records as [|record rest IH]; intros pw Hp Hij Hfull;
    cbn [scheduleTxnAndExecution_loop List.length] in *; [lia |].
  inversion Hp as [|? ? Hhd Htl]; subst.
  destruct record as [r|]; [| contradiction]. cbn in Hhd.
  destruct (Z.geb_spec (Offset r) (highestOffset pw)) as [_|]; [| lia].
  cbv zeta.
  destruct (acquire (created (newEventContext r) pw)) as [pw1|] eqn:Hacq;
    [| reflexivity].
  destruct (send_eventInput (newEventContext r)
              (addEventContext (newEventContext r) pw1)) as [pw2|] eqn:Hsend;
    [| reflexivity].
  destruct (inspect_scheduled _ _ _ _ Hacq Hsend) as [S1 Hij2].
  unfold interleaveInterjection. rewrite Hij2, Hij.
  pose proof S1 as (_ & _ & _ & _ & _ & E6 & E7 & _ & _ & _ & E11 & _).
  apply IH.
  - eapply Forall_impl; [| exact Htl]. intros [x|]; cbn; [rewrite E7; auto | auto].
  - congruence.
  - assert (Hlt : (maxPending (created (newEventContext r) pw)
                   < maxPending_cap (created (newEventContext r) pw))%nat)
      by (apply acquire_some_iff; congruence).
    cbn in Hlt. rewrite E6, E11. cbn. lia.
Qed.

(** X14.  Back-pressure: when the batch has more passing records than
    [maxPending] has free slots, an undisturbed call cannot return; it
    waits for the dispatch loop to release a token. *)
Theorem scheduleTxnAndExecution_blocks_without_tokens :
  forall pw records,
    isRevoked pw = false ->
    Forall (passes pw) records ->
    interjectionInput pw = [] ->
    (maxPending_cap pw - maxPending pw < List.length records)%nat ->
    scheduleTxnAndExecution pw records = None.
Proof.
  intros pw records Hrun Hp Hij Hfull. unfold scheduleTxnAndExecution.
  rewrite Hrun. apply blocked_loop; assumption.
Qed.

(** ** The two goroutines *)


(* Splits a step into its cases: on the action, the program points, the
   channel contents and the tests, leaving the resulting state explicit. *)
Ltac step_cases H :=
  unfold step, add, processAsyncJob, ingress_step, acquire, release,
    send_eventInput, send_interjectionEventInput, chan_send in H;
  cbn [worker ingress dispatch] in H;
  repeat match type of H with
         | context [match ?x with _ => _ end] =>
             lazymatch x with
             | context [match _ with _ => _ end] => fail
             | _ => destruct x eqn:?; try discriminate H; cbn [fst snd] in H
             end
         end;
  injection H as H; subst.

Ltac callback_cases :=
  unfold run_callback;
  repeat match goal with
         | |- context [match callback ?i with _ => _ end] => destruct (callback i)
         end.

Lemma step_keeps_revoked :
  forall sys a sys',
    step sys a = Some sys' ->
    isRevoked (worker sys) = true ->
    isRevoked (worker sys') = true.
Proof.
  intros [pw ipc dpc] a sys' Hstep Hrev. cbn [worker] in *.
  destruct a; step_cases Hstep; callback_cases; cbn;
    try assumption; try reflexivity; congruence.
Qed.

(** X10.  Revocation is permanent: once [isRevoked] holds, it holds after
    every run, whatever the consumer, the timers and the two goroutines
    do. *)
Theorem revocation_is_permanent :
  forall acts sys sys',
    isRevoked (worker sys) = true ->
    run sys acts = Some sys' ->
    isRevoked (worker sys') = true.
Proof.
  induction acts as [|a acts IH]; intros sys sys' Hrev; cbn [run].
  - intros H; injection H as <-. exact Hrev.
  - destruct (step sys a) as [sys1|] eqn:E; [| discriminate].
    apply IH. eapply step_keeps_revoked; eassumption.
Qed.

(** X19.  Who touches what.  A step of the dispatch loop constructs no
    context, hands none to the pool, leaves [revocationWaiter] and the
    run status alone and never takes a token.  A step of [pushRecords]
    leaves [highestOffset], the handler calls and the completions alone
    and never releases a token.  The consumer, [revoke] and the timers
    change none of these. *)
Theorem goroutines_keep_to_their_fields :
  forall sys a sys',
    step sys a = Some sys' ->
    match a with
    | WorkEvent | WorkInterjection | WorkAsyncJob _
    | ProducerAssigned _ | HandlerReturns _ => dispatch_frame sys sys'
    | PushRecords | PushInterjection | IngressStep => ingress_frame sys sys'
    | ConsumerAdd _ | Revoke | TimerFire _ => environment_frame sys sys'
    end.
Proof.
  intros [pw ipc dpc] a sys' Hstep.
  unfold dispatch_frame, ingress_frame, environment_frame.
  destruct a; step_cases Hstep; callback_cases; cbn in *;
    repeat split; try reflexivity; try lia.
Qed.

Lemma step_last_forwarded :
  forall sys a sys',
    step sys a = Some sys' ->
    highestOffset (worker sys) = last_forwarded (worker sys) ->
    highestOffset (worker sys') = last_forwarded (worker sys').
Proof.
  intros [pw ipc dpc] a sys' Hstep Hinv. unfold last_forwarded in *.
  cbn [worker] in *.
  destruct a; step_cases Hstep; callback_cases; try exact Hinv.
  all: cbn [worker highestOffset handled set_handled set_highestOffset];
    rewrite map_app; cbn [map]; rewrite last_last; reflexivity.
Qed.

(** X20.  In every state a worker can reach, [highestOffset] is -1 when
    no event has been forwarded to the handler, and otherwise
    [ec.Offset()+1] for the event forwarded last. *)
Theorem highestOffset_follows_last_forwarded :
  forall parent eosConfig maxPendingItems pw0 acts sys,
    newPartitionWorker parent eosConfig maxPendingItems = Some pw0 ->
    run (activated pw0) acts = Some sys ->
    highestOffset (worker sys) = last_forwarded (worker sys).
Proof.
  intros parent eosConfig n pw0 acts sys Hnew.
  assert (H0 : highestOffset (worker (activated pw0))
               = last_forwarded (worker (activated pw0))).
  { unfold newPartitionWorker in Hnew. destruct (n <? 0); [discriminate |].
    injection Hnew as <-. reflexivity. }
  revert H0. generalize (activated pw0). clear Hnew pw0.
  induction acts as [|a acts IH]; intros s0 H0; cbn [run].
  - intros H; injection H as <-. exact H0.
  - destruct (step s0 a) as [s1|] eqn:E; [| discriminate].
    apply IH. eapply step_last_forwarded; eassumption.
Qed.

Lemma step_pool_order :
  forall sys a sys',
    step sys a = Some sys' ->
    contexts (worker sys) = eosProducer (worker sys) ++ unregistered (ingress sys) ->
    contexts (worker sys') = eosProducer (worker sys') ++ unregistered (ingress sys').
Proof.
  intros [pw ipc dpc] a sys' Hstep Hinv. cbn [worker ingress] in *.
  destruct a; step_cases Hstep; callback_cases; cbn in *;
    rewrite ?app_nil_r in *; try assumption;
    try (rewrite Hinv; reflexivity);
    try (rewrite <- app_assoc; assumption).
  all: try (destruct ret; cbn; rewrite ?app_nil_r; assumption).
Qed.

Lemma step_tokens :
  forall sys a sys',
    step sys a = Some sys' ->
    (maxPending (worker sys) <= maxPending_cap (worker sys))%nat /\
    (maxPending (worker sys) + untokened (ingress sys)
       <= List.length (contexts (worker sys)))%nat ->
    (maxPending (worker sys') <= maxPending_cap (worker sys'))%nat /\
    (maxPending (worker sys') + untokened (ingress sys')
       <= List.length (contexts (worker sys')))%nat.
Proof.
  intros [pw ipc dpc] a sys' Hstep Hinv. cbn [worker ingress] in *.
  destruct a; step_cases Hstep; callback_cases;
    repeat match goal with
           | H : (_ <? _)%nat = true |- _ => apply Nat.ltb_lt in H
           end;
    cbn in *; rewrite ?length_app in *; cbn in *;
    try lia.
  all: try (destruct ret; cbn; lia).
Qed.

Lemma run_invariant :
  forall (I : system -> Prop),
    (forall sys a sys', step sys a = Some sys' -> I sys -> I sys') ->
    forall acts sys sys', I sys -> run sys acts = Some sys' -> I sys'.
Proof.
  intros I Hstep. induction acts as [|a acts IH]; intros sys sys' H0; cbn [run].
  - intros H; injection H as <-. exact H0.
  - destruct (step sys a) as [sys1|] eqn:E; [| discriminate].
    apply IH. eapply Hstep; eassumption.
Qed.

Lemma reachable_pool_order :
  forall parent eosConfig maxPendingItems pw0 acts sys,
    newPartitionWorker parent eosConfig maxPendingItems = Some pw0 ->
    run (activated pw0) acts = Some sys ->
    contexts (worker sys) = eosProducer (worker sys) ++ unregistered (ingress sys) /\
    (List.length (unregistered (ingress sys)) <= 1)%nat.
Proof.
  intros parent eosConfig n pw0 acts sys Hnew Hrun. split.
  - eapply (run_invariant
              (fun s => contexts (worker s)
                        = eosProducer (worker s) ++ unregistered (ingress s)));
      [exact step_pool_order | | exact Hrun].
    unfold newPartitionWorker in Hnew. destruct (n <? 0); [discriminate |].
    injection Hnew as <-. reflexivity.
  - destruct (ingress sys); cbn; lia.
Qed.

(** X21.  In every state a worker can reach, the contexts handed to the
    pool are the contexts constructed, in the order of construction, but
    for at most one: the one [pushRecords] is about to register. *)
Theorem pool_admission_follows_creation :
  forall parent eosConfig maxPendingItems pw0 acts sys,
    newPartitionWorker parent eosConfig maxPendingItems = Some pw0 ->
    run (activated pw0) acts = Some sys ->
    contexts (worker sys) = eosProducer (worker sys) ++ unregistered (ingress sys) /\
    (List.length (unregistered (ingress sys)) <= 1)%nat.
Proof. exact reachable_pool_order. Qed.

(** X22.  In every state a worker can reach, [maxPending] holds no more
    tokens than the pool's limit, and no more than there are contexts
    constructed, the one that [pushRecords] is about to take a token for
    not counted: every token held was taken for a context.  The capacity
    of [maxPending] stays the pool's limit.  (Only tokens are counted: a
    token is given back after the completion is signalled, so the
    completions say nothing about the tokens held at that moment.) *)
Theorem tokens_backed_by_contexts :
  forall parent eosConfig maxPendingItems pw0 acts sys,
    newPartitionWorker parent eosConfig maxPendingItems = Some pw0 ->
    run (activated pw0) acts = Some sys ->
    (maxPending (worker sys) <= maxPending_cap (worker sys))%nat /\
    (maxPending (worker sys) + untokened (ingress sys)
       <= List.length (contexts (worker sys)))%nat /\
    maxPending_cap (worker sys) = Z.to_nat maxPendingItems.
Proof.
  intros parent eosConfig n pw0 acts sys Hnew Hrun.
  assert (H : ((maxPending (worker sys) <= maxPending_cap (worker sys))%nat /\
               (maxPending (worker sys) + untokened (ingress sys)
                  <= List.length (contexts (worker sys)))%nat)).
  { eapply (run_invariant
              (fun s => (maxPending (worker s) <= maxPending_cap (worker s))%nat /\
                        (maxPending (worker s) + untokened (ingress s)
                         <= List.length (contexts (worker s)))%nat));
      [exact step_tokens | | exact Hrun].
    unfold newPartitionWorker in Hnew. destruct (n <? 0); [discriminate |].
    injection Hnew as <-. cbn. lia. }
  destruct H as [H1 H2]. repeat split; try assumption.
  eapply (run_invariant (fun s => maxPending_cap (worker s) = Z.to_nat n));
    [| | exact Hrun].
  - clear. intros [pw ipc dpc] a sys' Hstep Hinv. cbn [worker] in *.
    destruct a; step_cases Hstep; callback_cases; exact Hinv.
  - unfold newPartitionWorker in Hnew. destruct (n <? 0); [discriminate |].
    injection Hnew as <-. reflexivity.
Qed.

Ltac use_eqs H :=
  repeat match goal with
         | E : partitionInput _ = _ |- _ => rewrite E in H; clear E
         | E : eventInput _ = _ |- _ => rewrite E in H; clear E
         end.

Lemma step_created_order :
  forall sys a sys' fut,
    step sys a = Some sys' ->
    StronglySorted Z.le
      (created_offsets (worker sys) ++ unscheduled sys
         ++ offsets (offered [a]) ++ fut) ->
    StronglySorted Z.le (created_offsets (worker sys') ++ unscheduled sys' ++ fut).
Proof.
  intros [pw ipc dpc] a sys' fut Hstep Hinv.
  unfold created_offsets, unscheduled, context_offsets in *.
  cbn [worker ingress] in *.
  destruct a; step_cases Hstep; callback_cases; use_eqs Hinv;
    (eapply sub_sorted; [| exact Hinv]);
    cbn [worker ingress ingress_rest contexts partitionInput offered offsets
         set_partitionInput set_eventInput set_interjectionInput set_maxPending
         set_contexts set_eosProducer set_revocationWaiter set_runStatus
         set_highestOffset set_handled set_completed set_callbacks set_ticks
         set_interjectionEventInput created waiter_Add waiter_Done
         addEventContext revoke invoke complete tick ret_pc List.concat app];
    repeat (progress (rewrite ?filter_app, ?map_app, ?offsets_app, ?concat_app,
                        ?app_nil_r, <- ?app_assoc;
                      cbn [filter holds_record input newEventContext
                           newInterjectionContext negb map app offsets
                           List.concat EventContext_Offset]));
    try (destruct ret; cbn [ingress_rest ret_pc]);
    solve_sub.
Qed.

Lemma run_created_order :
  forall acts sys sys' fut,
    StronglySorted Z.le
      (created_offsets (worker sys) ++ unscheduled sys
         ++ offsets (offered acts) ++ fut) ->
    run sys acts = Some sys' ->
    StronglySorted Z.le (created_offsets (worker sys') ++ unscheduled sys' ++ fut).
Proof.
  induction acts as [|a acts IH]; intros sys sys' fut Hs; cbn [run].
  - intros H; injection H as <-. exact Hs.
  - destruct (step sys a) as [sys1|] eqn:E; [| discriminate].
    apply IH. eapply step_created_order; [exact E |].
    change (a :: acts) with ([a] ++ acts) in Hs.
    rewrite offered_app, offsets_app, <- app_assoc in Hs. exact Hs.
Qed.

(** X23.  When the offsets offered to a worker come in non-decreasing
    order, the record contexts are constructed, and handed to the pool, in
    non-decreasing order of their offsets, under every interleaving. *)
Theorem contexts_created_in_offset_order :
  forall parent eosConfig maxPendingItems pw0 acts sys,
    newPartitionWorker parent eosConfig maxPendingItems = Some pw0 ->
    StronglySorted Z.le (offsets (offered acts)) ->
    run (activated pw0) acts = Some sys ->
    StronglySorted Z.le (created_offsets (worker sys)) /\
    StronglySorted Z.le
      (context_offsets (filter holds_record (eosProducer (worker sys)))).
Proof.
  intros parent eosConfig n pw0 acts sys Hnew Hs Hrun.
  assert (H0 : StronglySorted Z.le
                 (created_offsets (worker (activated pw0))
                    ++ unscheduled (activated pw0) ++ offsets (offered acts) ++ [])).
  { unfold newPartitionWorker in Hnew. destruct (n <? 0); [discriminate |].
    injection Hnew as <-. cbn. rewrite app_nil_r. exact Hs. }
  pose proof (run_created_order _ _ _ _ H0 Hrun) as H1.
  assert (Hc : StronglySorted Z.le (created_offsets (worker sys))).
  { eapply sub_sorted; [| exact H1]. apply sub_prefix. }
  split; [exact Hc |].
  destruct (reachable_pool_order _ _ _ _ _ _ Hnew Hrun) as [Hp _].
  unfold created_offsets, context_offsets in Hc.
  rewrite Hp, filter_app, map_app in Hc.
  eapply sub_sorted; [| exact Hc]. apply sub_prefix.
Qed.

(** ** The dispatch loop, continued *)

Lemma completing_cons :
  forall job jobs,
    completing (job :: jobs)
    = match Finalize job with
      | Complete => job :: completing jobs
      | _ => completing jobs
      end.
Proof. intros job jobs. unfold completing. cbn. destruct (Finalize job); reflexivity. Qed.

(** X16.  While it waits for the producer, [assignProducer] completes the
    contexts of the jobs whose finalizer returns [Complete], in the order
    of arrival, and releases one token for each.  The worker it returns is
    the worker it was given with [completed] extended by these contexts
    and [maxPending] lowered by their number: every other field is as it
    was.  The context gets the producer delivered.  When more jobs
    complete than tokens are held, the call cannot return in the state at
    hand: it blocks on [maxPending]. *)
Theorem assignProducer_accounting :
  forall jobs pw ec p,
    ((List.length (completing jobs) <= maxPending pw)%nat ->
     assignProducer pw ec jobs p
     = Some ({| eosProducer := eosProducer pw;
                partitionInput := partitionInput pw;
                maxPending := maxPending pw - List.length (completing jobs);
                maxPending_cap := maxPending_cap pw;
                interjectionInput := interjectionInput pw;
                eventInput := eventInput pw;
                eventInput_cap := eventInput_cap pw;
                interjectionEventInput := interjectionEventInput pw;
                runStatus := runStatus pw;
                ready := ready pw;
                highestOffset := highestOffset pw;
                revocationWaiter := revocationWaiter pw;
                contexts := contexts pw;
                completed := completed pw ++ map ctx (completing jobs);
                handled := handled pw;
                callbacks := callbacks pw;
                ticks := ticks pw |},
             assign p ec)) /\
    ((maxPending pw < List.length (completing jobs))%nat ->
     assignProducer pw ec jobs p = None).
Proof.
  induction jobs as [|job jobs IH]; intros pw ec p; cbn [assignProducer].
  - split.
    + intros _. cbn. rewrite app_nil_r, Nat.sub_0_r. destruct pw; reflexivity.
    + cbn. lia.
  - rewrite completing_cons. unfold processAsyncJob.
    destruct (Finalize job) eqn:Ef; cbn [List.length map]; try apply IH.
    unfold release. cbn [maxPending complete set_completed].
    destruct (maxPending pw) as [|k] eqn:Ek.
    + split; [lia | reflexivity].
    + destruct (IH (set_maxPending k (complete (ctx job) pw)) ec p) as [IH1 IH2].
      cbn in IH1, IH2. split.
      * intros Hle. rewrite IH1 by lia. rewrite <- app_assoc. reflexivity.
      * intros Hlt. apply IH2. lia.
Qed.

(** X17.  [handleInterjection] never touches [highestOffset] and never
    calls the event handler.  Without a producer it releases one token and
    runs the one-shot callback, if there is one, once; with a producer it
    completes the context, releases the token and re-arms the interjection
    exactly when the interjector returns [Complete], and otherwise leaves
    the worker as the wait left it. *)
Theorem handleInterjection_outcomes :
  forall pw ec inter jobs p st pw1 ec1,
    ec_interjection ec = Some inter ->
    assignProducer pw ec jobs p = Some (pw1, ec1) ->
    (0 < maxPending pw1)%nat ->
    exists pw',
      handleInterjection pw ec jobs p st = Some pw' /\
      highestOffset pw' = highestOffset pw /\
      handled pw' = handled pw /\
      match p with
      | None =>
          maxPending pw' = (maxPending pw1 - 1)%nat /\
          completed pw' = completed pw1 /\
          ticks pw' = ticks pw1 /\
          callbacks pw' = match callback inter with
                          | Some cb => callbacks pw1 ++ [cb]
                          | None => callbacks pw1
                          end
      | Some _ =>
          callbacks pw' = callbacks pw1 /\
          (st = Complete ->
           completed pw' = completed pw1 ++ [ec1] /\
           maxPending pw' = (maxPending pw1 - 1)%nat /\
           ticks pw' = ticks pw1 ++ [inter]) /\
          (st <> Complete -> pw' = pw1)
      end.
Proof.
  intros pw ec inter jobs p st pw1 ec1 Hij Hassign Htok.
  destruct (assignProducer_frame _ _ _ _ _ _ Hassign) as (-> & Hh & Hhd & _).
  unfold handleInterjection. rewrite Hij, Hassign. cbn [fst snd].
  destruct p as [n|]; cbn [producer assign].
  - destruct st.
    + rewrite release_some by exact Htok. eexists. split; [reflexivity |].
      cbn. repeat split; congruence.
    + eexists. split; [reflexivity |]. repeat split; congruence.
    + eexists. split; [reflexivity |]. repeat split; congruence.
    + eexists. split; [reflexivity |]. repeat split; congruence.
  - rewrite release_some by exact Htok. eexists. split; [reflexivity |].
    unfold run_callback. destruct (callback inter); cbn; repeat split; congruence.
Qed.

(** ** Construction and entry points *)

(** X8.  [newPartitionWorker] panics when the pool's limit of pending
    items is negative.  A worker that has been constructed holds no
    token, has empty channels, [highestOffset] -1 and room for
    [maxPendingItems] tokens; its [eventInput] holds [MaxBatchSize/10]
    contexts, but never fewer than 100; and it cannot be interjected
    until [work] has activated it. *)
Theorem newPartitionWorker_constructed :
  forall parent eosConfig maxPendingItems,
    (maxPendingItems < 0 ->
     newPartitionWorker parent eosConfig maxPendingItems = None) /\
    (forall pw,
       newPartitionWorker parent eosConfig maxPendingItems = Some pw ->
       0 <= maxPendingItems /\
       maxPending pw = 0%nat /\
       maxPending_cap pw = Z.to_nat maxPendingItems /\
       partitionInput pw = [] /\
       interjectionInput pw = [] /\
       eventInput pw = [] /\
       interjectionEventInput pw = [] /\
       highestOffset pw = -1 /\
       canInterject pw = false /\
       canInterject (worker (activated pw)) = true /\
       (100 <= eventInput_cap pw)%nat /\
       eventInput_cap pw
         = Z.to_nat (Z.max (Int64.div (MaxBatchSize eosConfig) 10) 100)).
Proof.
  intros parent eosConfig n. unfold newPartitionWorker.
  destruct (Z.ltb_spec n 0) as [Hneg|Hpos]; split.
  - reflexivity.
  - intros pw H; discriminate.
  - lia.
  - intros pw H. injection H as <-. cbn.
    assert (Hcap : sak_Max (Int64.div (MaxBatchSize eosConfig) 10) 100
                   = Z.max (Int64.div (MaxBatchSize eosConfig) 10) 100).
    { unfold sak_Max.
      destruct (Z.ltb_spec (Int64.div (MaxBatchSize eosConfig) 10) 100); lia. }
    rewrite Hcap. repeat split; try assumption; try reflexivity. lia.
Qed.

(** X9.  On a running worker, as long as fewer than four batches wait in
    [partitionInput], [add] returns the worker it was given with the batch
    appended at the tail of [partitionInput]: every other field, the run
    status included, is as it was.  With four batches waiting it
    blocks. *)
Theorem add_is_a_bounded_queue :
  forall pw records,
    isRevoked pw = false ->
    ((List.length (partitionInput pw) < 4)%nat ->
     add pw records
     = Some {| eosProducer := eosProducer pw;
               partitionInput := partitionInput pw ++ [records];
               maxPending := maxPending pw;
               maxPending_cap := maxPending_cap pw;
               interjectionInput := interjectionInput pw;
               eventInput := eventInput pw;
               eventInput_cap := eventInput_cap pw;
               interjectionEventInput := interjectionEventInput pw;
               runStatus := runStatus pw;
               ready := ready pw;
               highestOffset := highestOffset pw;
               revocationWaiter := revocationWaiter pw;
               contexts := contexts pw;
               completed := completed pw;
               handled := handled pw;
               callbacks := callbacks pw;
               ticks := ticks pw |}) /\
    ((4 <= List.length (partitionInput pw))%nat -> add pw records = None).
Proof.
  intros pw records Hrun. unfold add, chan_send, partitionInput_cap. rewrite Hrun.
  destruct (Nat.ltb_spec (List.length (partitionInput pw)) 4); split; intros; try lia.
  - reflexivity.
  - reflexivity.
Qed.

Lemma acquire_some :
  forall pw,
    (maxPending pw < maxPending_cap pw)%nat ->
    acquire pw = Some (set_maxPending (S (maxPending pw)) pw).
Proof.
  intros pw H. unfold acquire.
  destruct (Nat.ltb_spec (maxPending pw) (maxPending_cap pw)); [reflexivity | lia].
Qed.

Lemma acquire_none :
  forall pw, (maxPending_cap pw <= maxPending pw)%nat -> acquire pw = None.
Proof.
  intros pw H. unfold acquire.
  destruct (Nat.ltb_spec (maxPending pw) (maxPending_cap pw)); [lia | reflexivity].
Qed.

(** X15.  On a running worker [scheduleInterjection] returns exactly when
    a token is free and [interjectionEventInput] is empty; it then has
    scheduled one interjection context (token, pool, channel,
    [revocationWaiter] up by one) and has not run the callback. *)
Theorem scheduleInterjection_running :
  forall pw inter,
    isRevoked pw = false ->
    (((maxPending pw < maxPending_cap pw)%nat /\ interjectionEventInput pw = []) ->
     exists pw',
       scheduleInterjection pw inter = Some pw' /\
       scheduled 0 pw pw' [newInterjectionContext inter] /\
       callbacks pw' = callbacks pw) /\
    (((maxPending_cap pw <= maxPending pw)%nat \/ interjectionEventInput pw <> []) ->
     scheduleInterjection pw inter = None).
Proof.
  intros pw inter Hrun. split.
  - intros [Htok Hroom].
    assert (E : exists pw', scheduleInterjection pw inter = Some pw' /\
                            callbacks pw' = callbacks pw).
    { unfold scheduleInterjection. rewrite Hrun. cbv zeta.
      rewrite acquire_some by exact Htok.
      unfold send_interjectionEventInput, chan_send.
      change (interjectionEventInput (addEventContext _ _))
        with (interjectionEventInput pw).
      rewrite Hroom. eexists. split; reflexivity. }
    destruct E as (pw' & E & Hcb). exists pw'. split; [exact E |].
    split; [| exact Hcb]. eapply scheduleInterjection_scheduled; eassumption.
  - intros Hfull. unfold scheduleInterjection. rewrite Hrun. cbv zeta.
    destruct (Nat.le_gt_cases (maxPending_cap pw) (maxPending pw)) as [Hle|Hgt].
    + rewrite acquire_none by exact Hle. reflexivity.
    + rewrite acquire_some by exact Hgt.
      destruct Hfull as [Hfull | Hfull]; [lia |].
      unfold send_interjectionEventInput, chan_send.
      change (interjectionEventInput (addEventContext _ _))
        with (interjectionEventInput pw).
      destruct (interjectionEventInput pw); [contradiction | reflexivity].
Qed.

(** X18.  The life of a token.  Scheduling one passing record takes one
    token and puts its context on [eventInput].  Handling that context
    gives the token back when the pool delivers no producer and when the
    handler returns [Complete]; when the handler returns anything else the
    token stays out until an async job for the context finalizes with
    [Complete], which completes the context and gives the token back. *)
Theorem event_token_lifecycle :
  forall pw r,
    isRevoked pw = false ->
    highestOffset pw <= Offset r ->
    interjectionInput pw = [] ->
    eventInput pw = [] ->
    (maxPending pw < maxPending_cap pw)%nat ->
    (0 < eventInput_cap pw)%nat ->
    exists pw1,
      scheduleTxnAndExecution pw [Some r] = Some pw1 /\
      eventInput pw1 = [newEventContext r] /\
      maxPending pw1 = S (maxPending pw) /\
      (forall st,
         exists pw2,
           handleEvent (set_eventInput [] pw1) (newEventContext r) [] None st
             = Some (pw2, true) /\
           maxPending pw2 = maxPending pw /\
           completed pw2 = completed pw) /\
      (forall n,
         exists pw2,
           handleEvent (set_eventInput [] pw1) (newEventContext r) [] (Some n) Complete
             = Some (pw2, true) /\
           maxPending pw2 = maxPending pw /\
           completed pw2 = completed pw ++ [assign (Some n) (newEventContext r)]) /\
      (forall n st fin,
         st <> Complete ->
         fin tt = Complete ->
         exists pw2 pw3,
           handleEvent (set_eventInput [] pw1) (newEventContext r) [] (Some n) st
             = Some (pw2, true) /\
           maxPending pw2 = S (maxPending pw) /\
           completed pw2 = completed pw /\
           processAsyncJob pw2
             {| ctx := assign (Some n) (newEventContext r); finalizer := fin |}
             = Some pw3 /\
           maxPending pw3 = maxPending pw /\
           completed pw3 = completed pw ++ [assign (Some n) (newEventContext r)]).
Proof.
  intros pw r Hrun Hge Hij Hev Htok Hroom.
  destruct (passing_batch_scheduled pw [Some r])
    as (pw1 & Hs & _ & _ & E3 & _ & E5 & _).
  - exact Hrun.
  - constructor; [exact Hge | constructor].
  - exact Hij.
  - cbn. lia.
  - rewrite Hev. cbn. lia.
  - assert (Etok : maxPending pw1 = S (maxPending pw)) by (rewrite E5; cbn; lia).
    assert (Hcomp : completed pw1 = completed pw).
    { destruct (scheduleTxnAndExecution_scheduled _ _ _ Hrun Hs) as (new & S & _).
      unfold scheduled in S. decompose [and] S. assumption. }
    rewrite Hev in E3. cbn in E3, E5.
    exists pw1. split; [exact Hs |]. split; [exact E3 |]. split; [exact Etok |].
    unfold handleEvent, forwardToEventSource.
    cbn [assignProducer fst snd producer assign].
    split; [| split].
    + intros st. rewrite release_some by (cbn; lia).
      eexists. split; [reflexivity |]. cbn. rewrite Etok, Hcomp. split; [lia | reflexivity].
    + intros n. rewrite release_some by (cbn; lia).
      eexists. split; [reflexivity |]. cbn. rewrite Etok, Hcomp. split; [lia | reflexivity].
    + intros n st fin Hst Hfin.
      assert (Hst' : forall (A : Type) (x y : A),
                 match st with Complete => x | _ => y end = y)
        by (intros; destruct st; [contradiction | reflexivity ..]).
      rewrite Hst'. eexists. eexists. split; [reflexivity |].
      split; [exact Etok |]. split; [exact Hcomp |].
      split.
      * unfold processAsyncJob, Finalize. cbn [finalizer ctx].
        rewrite Hfin. rewrite release_some by (cbn; lia). reflexivity.
      * cbn. rewrite Etok, Hcomp. split; [lia | reflexivity].
Qed.

(** ** Further instances *)

Lemma minInSync_within_replication_witness :
  config_ints_in_range (example_config 3 5 None None) /\
  minInSyncConfig (newSource (example_config 3 5 None None))
    < replicationFactorConfig (newSource (example_config 3 5 None None)).
Proof.
  assert (H : config_ints_in_range (example_config 3 5 None None)).
  { unfold config_ints_in_range, Int64.in_range, Int64.min_int, Int64.max_int.
    cbn. lia. }
  split; [exact H |].
  destruct (minInSync_within_replication (newSource (example_config 3 5 None None)) H)
    as (_ & _ & Hlt & _).
  apply Hlt. cbn. lia.
Defined.

Lemma normalization_idempotent_witness :
  replicationFactorConfig (normalized (newSource (example_config 0 5 None None))) = 1 /\
  minInSyncConfig (normalized (newSource (example_config 0 5 None None))) = 1.
Proof.
  assert (H : config_ints_in_range (example_config 0 5 None None)).
  { unfold config_ints_in_range, Int64.in_range, Int64.min_int, Int64.max_int.
    cbn. lia. }
  destruct (normalization_idempotent (newSource (example_config 0 5 None None)) H)
    as [H1 H2].
  split; [rewrite H1 | rewrite H2]; reflexivity.
Defined.

Lemma CommitLogTopicName_injective_witness :
  GroupId (config (renamed "a" "orders" (newSource (example_config 3 2 None None))))
  = GroupId (config (renamed "b" "orders" (newSource (example_config 1 1 None None)))).
Proof.
  apply (CommitLogTopicName_injective
           (renamed "a" "orders" (newSource (example_config 3 2 None None)))
           (renamed "b" "orders" (newSource (example_config 1 1 None None)))).
  reflexivity.
Defined.

(** Topic [a_b] with group [c], and topic [a] with group [b_c]. *)
Lemma generated_StateStoreTopicName_collides_witness :
  StateStoreTopicName (renamed "a_b" "c" (newSource (example_config 3 2 None None)))
  = StateStoreTopicName (renamed "a" "b_c" (newSource (example_config 3 2 None None))).
Proof.
  apply (generated_StateStoreTopicName_collides
           (newSource (example_config 3 2 None None)) "a" "b" "c").
  reflexivity.
Defined.

Lemma scheduleTxnAndExecution_accounting_witness :
  exists pw',
    scheduleTxnAndExecution fresh_worker duplicate_batch = Some pw' /\
    exists new,
      scheduled 0 fresh_worker pw' new /\
      filter holds_record new
        = record_contexts
            (filter (inspect_ok (highestOffset fresh_worker)) duplicate_batch).
Proof.
  exists_result (scheduleTxnAndExecution fresh_worker duplicate_batch).
  split; [vm_compute; reflexivity |].
  apply scheduleTxnAndExecution_accounting; [reflexivity | vm_compute; reflexivity].
Defined.

(** A worker whose last forwarded offset was 9 gets the batch [5, nil, 8]. *)
Lemma scheduleTxnAndExecution_stale_batch_witness :
  scheduleTxnAndExecution (set_highestOffset 10 fresh_worker)
    [record_at 5; None; record_at 8]
  = Some (set_highestOffset 10 fresh_worker).
Proof.
  apply scheduleTxnAndExecution_stale_batch.
  - repeat constructor; cbn; lia.
  - reflexivity.
Defined.

Lemma scheduleTxnAndExecution_passing_batch_witness :
  exists pw',
    scheduleTxnAndExecution fresh_worker duplicate_batch = Some pw' /\
    context_offsets (eventInput pw') = [5; 6; 7; 5; 6; 7] /\
    revocationWaiter pw' = 6.
Proof.
  destruct (scheduleTxnAndExecution_passing_batch fresh_worker duplicate_batch)
    as (pw' & Hs & _ & _ & E3 & E4 & _).
  - reflexivity.
  - repeat constructor; cbn; lia.
  - reflexivity.
  - cbn. lia.
  - cbn. lia.
  - exists pw'. split; [exact Hs |]. rewrite E3, E4. split; reflexivity.
Defined.

(** Seven of the eight tokens are out; the batch has six records. *)
Lemma scheduleTxnAndExecution_blocks_without_tokens_witness :
  scheduleTxnAndExecution (set_maxPending 7 fresh_worker) duplicate_batch = None.
Proof.
  apply scheduleTxnAndExecution_blocks_without_tokens.
  - reflexivity.
  - repeat constructor; cbn; lia.
  - reflexivity.
  - cbn. lia.
Defined.

Lemma scheduleInterjection_running_witness :
  exists pw',
    scheduleInterjection fresh_worker example_interjection = Some pw' /\
    scheduled 0 fresh_worker pw' [newInterjectionContext example_interjection] /\
    callbacks pw' = callbacks fresh_worker.
Proof.
  apply (scheduleInterjection_running fresh_worker example_interjection eq_refl).
  split; [cbn; lia | reflexivity].
Defined.

(** The pool delivers no producer for an interjection with a callback. *)
Lemma handleInterjection_outcomes_witness :
  exists pw',
    handleInterjection (set_maxPending 1 fresh_worker)
      (newInterjectionContext example_interjection) [] None Complete = Some pw' /\
    maxPending pw' = 0%nat /\
    callbacks pw' = [7%nat].
Proof.
  destruct (handleInterjection_outcomes
              (set_maxPending 1 fresh_worker)
              (newInterjectionContext example_interjection) example_interjection
              [] None Complete
              (set_maxPending 1 fresh_worker)
              (assign None (newInterjectionContext example_interjection))
              eq_refl eq_refl (Nat.lt_0_succ 0))
    as (pw' & Hrun & _ & _ & Htok & _ & _ & Hcb).
  exists pw'. repeat split; assumption.
Defined.

Lemma event_token_lifecycle_witness :
  exists pw1,
    scheduleTxnAndExecution fresh_worker [Some {| Offset := 5 |}] = Some pw1 /\
    exists pw2,
      handleEvent (set_eventInput [] pw1) (newEventContext {| Offset := 5 |})
        [] (Some 0%nat) Complete = Some (pw2, true) /\
      maxPending pw2 = maxPending fresh_worker.
Proof.
  destruct (event_token_lifecycle fresh_worker {| Offset := 5 |})
    as (pw1 & Hs & _ & _ & _ & Hc & _).
  - reflexivity.
  - cbn. lia.
  - reflexivity.
  - reflexivity.
  - cbn. lia.
  - cbn. lia.
  - exists pw1. split; [exact Hs |].
    destruct (Hc 0%nat) as (pw2 & H2 & Ht & _). exists pw2. split; assumption.
Defined.

Lemma add_is_a_bounded_queue_witness :
  isRevoked fresh_worker = false /\
  (List.length (partitionInput fresh_worker) < 4)%nat /\
  add fresh_worker duplicate_batch
  = Some (set_partitionInput [duplicate_batch] fresh_worker).
Proof.
  split; [reflexivity |]. split; [cbn; lia |].
  destruct (add_is_a_bounded_queue fresh_worker duplicate_batch eq_refl) as [Hroom _].
  rewrite Hroom; [reflexivity | cbn; lia].
Defined.

(** A revoked worker is offered a batch and an interjection fires. *)
Lemma revocation_is_permanent_witness :
  exists sys',
    run {| worker := revoke fresh_worker; ingress := InSelect; dispatch := InWork |}
        [ConsumerAdd duplicate_batch; TimerFire example_interjection;
         PushInterjection; IngressStep] = Some sys' /\
    isRevoked (worker sys') = true /\
    callbacks (worker sys') = [7%nat].
Proof.
  exists_result
    (run {| worker := revoke fresh_worker; ingress := InSelect; dispatch := InWork |}
         [ConsumerAdd duplicate_batch; TimerFire example_interjection;
          PushInterjection; IngressStep]).
  split; [vm_compute; reflexivity |]. split; [| reflexivity].
  eapply (revocation_is_permanent
            [ConsumerAdd duplicate_batch; TimerFire example_interjection;
             PushInterjection; IngressStep]
            {| worker := revoke fresh_worker; ingress := InSelect; dispatch := InWork |}).
  - reflexivity.
  - vm_compute. reflexivity.
Defined.

Lemma goroutines_keep_to_their_fields_witness :
  exists sys',
    step (activated fresh_worker) (ConsumerAdd duplicate_batch) = Some sys' /\
    environment_frame (activated fresh_worker) sys'.
Proof.
  exists_result (step (activated fresh_worker) (ConsumerAdd duplicate_batch)).
  split; [reflexivity |].
  exact (goroutines_keep_to_their_fields
           (activated fresh_worker) (ConsumerAdd duplicate_batch) _ eq_refl).
Defined.

Lemma highestOffset_follows_last_forwarded_witness :
  exists sys,
    run (activated fresh_worker) example_run = Some sys /\
    highestOffset (worker sys) = 6 /\
    highestOffset (worker sys) = last_forwarded (worker sys).
Proof.
  exists_result (run (activated fresh_worker) example_run).
  split; [vm_compute; reflexivity |]. split; [reflexivity |].
  eapply (highestOffset_follows_last_forwarded running example_eos 8 fresh_worker
            example_run).
  - reflexivity.
  - vm_compute. reflexivity.
Defined.

Lemma pool_admission_follows_creation_witness :
  exists sys,
    run (activated fresh_worker) example_run = Some sys /\
    contexts (worker sys) = eosProducer (worker sys) ++ unregistered (ingress sys).
Proof.
  exists_result (run (activated fresh_worker) example_run).
  split; [vm_compute; reflexivity |].
  eapply (pool_admission_follows_creation running example_eos 8 fresh_worker
            example_run).
  - reflexivity.
  - vm_compute. reflexivity.
Defined.

Lemma tokens_backed_by_contexts_witness :
  exists sys,
    run (activated fresh_worker) example_run = Some sys /\
    maxPending (worker sys) = 2%nat /\
    List.length (contexts (worker sys)) = 3%nat /\
    (maxPending (worker sys) <= maxPending_cap (worker sys))%nat /\
    (maxPending (worker sys) + untokened (ingress sys)
       <= List.length (contexts (worker sys)))%nat /\
    maxPending_cap (worker sys) = Z.to_nat 8.
Proof.
  exists_result (run (activated fresh_worker) example_run).
  split; [vm_compute; reflexivity |]. split; [reflexivity |].
  split; [reflexivity |].
  eapply (tokens_backed_by_contexts running example_eos 8 fresh_worker example_run).
  - reflexivity.
  - vm_compute. reflexivity.
Defined.

Lemma contexts_created_in_offset_order_witness :
  exists sys,
    run (activated fresh_worker) example_run = Some sys /\
    created_offsets (worker sys) = [5; 6; 7] /\
    StronglySorted Z.le (created_offsets (worker sys)).
Proof.
  exists_result (run (activated fresh_worker) example_run).
  split; [vm_compute; reflexivity |]. split; [reflexivity |].
  eapply (contexts_created_in_offset_order running example_eos 8 fresh_worker
            example_run).
  - reflexivity.
  - cbn. repeat (constructor; try lia).
  - vm_compute. reflexivity.
Defined.
